(** * A shallow embedding of the gson JSON codec (package json)

    The Go program consists of a reflection-driven deserializer
    (Deserialize), its byte cursor, and a reflection-driven serializer
    (Serialize).  Go byte slices and strings are lists of [ascii]; the Go
    [int] fields of the cursor are [Z]; values reached through [reflect]
    are a tree of tagged values carrying their reflect kind.

    Go's [strconv.ParseFloat] / [strconv.FormatFloat], the float32
    conversion done by [reflect.Value.SetFloat] and the capacity chosen by
    the runtime when [reflect.Append] reallocates are not part of the
    repository: they are the fields of a [runtime] record that every
    walker takes as an argument. *)

From Stdlib Require Import Ascii String List ZArith Lia Bool Arith.
From Stdlib Require Import DecimalString.
Import ListNotations.

Set Warnings "-register-all,-notation-for-abbreviation".

Local Open Scope char_scope.
Local Open Scope Z_scope.

(** ** Bytes *)

Notation byte := ascii (only parsing).
Notation bytes := (list ascii) (only parsing).

(** A Go string literal, as bytes. *)
Definition B (s : string) : bytes := list_ascii_of_string s.
Arguments B s%_string.

Definition dquote : byte := "034"%char.
Definition backslash : byte := "092"%char.
Definition NUL : byte := "000"%char.
Definition BS : byte := "008"%char.   (* '\b' *)
Definition TAB : byte := "009"%char.  (* '\t' *)
Definition LF : byte := "010"%char.   (* '\n' *)
Definition FF : byte := "012"%char.   (* '\f' *)
Definition CR : byte := "013"%char.   (* '\r' *)

(** JSON text is written below with ' standing for the double quote. *)
Definition js (s : string) : bytes :=
  map (fun c => if Ascii.eqb c "'" then dquote else c) (list_ascii_of_string s).

Definition byte_le (a b : byte) : bool := (N_of_ascii a <=? N_of_ascii b)%N.

Definition bytes_eqb (a b : bytes) : bool :=
  if list_eq_dec ascii_dec a b then true else false.

Arguments js s%_string.

(** ** reflect.Kind *)

Module reflect.
Inductive Kind :=
| Invalid | Bool
| Int | Int8 | Int16 | Int32 | Int64
| Uint | Uint8 | Uint16 | Uint32 | Uint64 | Uintptr
| Float32 | Float64 | Complex64 | Complex128
| Array | Chan | Func | Interface | Map | Pointer | Slice
| String | Struct | UnsafePointer.

Definition Kind_eq_dec (a b : Kind) : {a = b} + {a <> b}.
Proof. decide equality. Defined.

Definition eqb (a b : Kind) : bool := if Kind_eq_dec a b then true else false.
End reflect.

(** reflect_utils.go *)

Definition isJsonArray (t : reflect.Kind) : bool :=
  reflect.eqb t reflect.Array || reflect.eqb t reflect.Slice.

Definition isPrimitive (kind : reflect.Kind) : bool :=
  match kind with
  | reflect.Bool => true
  | reflect.Int8 | reflect.Int16 | reflect.Int32 | reflect.Int64 | reflect.Int => true
  | reflect.Uint8 | reflect.Uint16 | reflect.Uint32 | reflect.Uint64 | reflect.Uint => true
  | reflect.Float32 | reflect.Float64 => true
  | reflect.String => true
  | _ => false
  end.

(** ** Errors

    The program builds every error with [newError(fmt.Sprintf(...))]; an
    error is modelled by the site that built it and the arguments given to
    the format string.  [ErrStrconv] stands for the errors returned by
    strconv's parsers. *)

Inductive error :=
| ErrEof                                          (* newError(eof) *)
| ErrNotJsonArray (k : reflect.Kind)              (* "Value is not JsonArray. Kind() is %s" *)
| ErrExpectedValueInLoop (got : byte) (n : Z)     (* "Expected object, array or primitive, got %s in loop num %d" *)
| ErrExpectedValue (got : byte)                   (* "Expected object, array or primitive, got %s" *)
| ErrKeyNotFound (key : bytes) (tname : bytes)    (* "Key: %s, could not be found in the interface: %v" *)
| ErrExpectedByte (want got : byte)               (* "Expected %s Got %s" *)
| ErrPeekedWhitespace                             (* "Peeked into whitespace" *)
| ErrExpectedPrimitive (got : byte)               (* "Expected string, number, bool or nil, got %v" *)
| ErrEmptyValue                                   (* "Value array is empty" *)
| ErrExpectedBool (got : bytes)                   (* "Expected true or false, got %s" *)
| ErrExpectedNull (got : bytes)                   (* "Expected null, got %s" *)
| ErrStringStart (got : byte)                     (* Expected string to start with ... but started with %v *)
| ErrStringEnd (got : byte)                       (* Expected string to end with ... but ended with %v *)
| ErrStrconv (fn : string) (input : bytes).       (* *strconv.NumError *)

Arguments ErrStrconv fn%_string input.

(** ** The cursor *)

Record deserializer := mkDeserializer {
  json : bytes;
  pos : Z;
  eof : Z;
  err : option error
}.

Definition makeDeserializer (j : bytes) : deserializer :=
  {| json := j; pos := 0; eof := Z.of_nat (length j) - 1; err := None |}.

Definition set_err (d : deserializer) (e : error) : deserializer :=
  {| json := json d; pos := pos d; eof := eof d; err := Some e |}.

Definition set_pos (d : deserializer) (p : Z) : deserializer :=
  {| json := json d; pos := p; eof := eof d; err := err d |}.

Definition hasError (d : deserializer) : bool :=
  match err d with Some _ => true | None => false end.

(** [d.json[d.pos]].  Every such read in the program is guarded by
    [atEof(0)] having returned false; [guarded_index_in_range] below shows
    that the index is then inside the buffer, so the default is never
    returned on a cursor made by [makeDeserializer]. *)
Definition at_pos (d : deserializer) : byte :=
  nth (Z.to_nat (pos d)) (json d) NUL.

Definition atEof (d : deserializer) (offset : Z) : bool * deserializer :=
  if pos d + offset >? eof d then (true, set_err d ErrEof) else (false, d).

Definition consume (d : deserializer) : byte * deserializer :=
  let (e, d) := atEof d 0 in
  if e then (NUL, d)
  else (at_pos d, set_pos d (pos d + 1)).

Definition peekCurrent (d : deserializer) : byte * deserializer :=
  let (e, d) := atEof d 0 in
  if e then (NUL, d) else (at_pos d, d).

Definition consumeByte (d : deserializer) (b : byte) : deserializer :=
  let (e, d) := atEof d 0 in
  if e then d
  else if negb (Ascii.eqb (at_pos d) b)
       then set_err d (ErrExpectedByte b (at_pos d))
       else snd (consume d).

Definition isWhitespace (b : byte) : bool :=
  Ascii.eqb b TAB || Ascii.eqb b " " || Ascii.eqb b LF || Ascii.eqb b CR.

(** Number of bytes from the position to the end of the buffer: the loops
    of [consumeWhitespace] and [consumeUntil] advance the position by one
    in every iteration and stop at the end, so they run at most that many
    times. *)
Definition remaining (d : deserializer) : nat := Z.to_nat (eof d + 1 - pos d).

(** [for !d.atEof(0) && isWhitespace(d.json[d.pos]) { d.consume() }] *)
Fixpoint consumeWhitespace_loop (n : nat) (d : deserializer) : deserializer :=
  let (e, d) := atEof d 0 in
  if negb e && isWhitespace (at_pos d) then
    match n with
    | O => d
    | S n => consumeWhitespace_loop n (snd (consume d))
    end
  else d.

Definition consumeWhitespace (d : deserializer) : deserializer :=
  consumeWhitespace_loop (remaining d) d.

(** The loop of [consumeUntil]: [sb] is the builder's content. *)
Fixpoint consumeUntil_loop (n : nat) (d : deserializer) (b : byte) (sb : bytes)
  : bytes * deserializer :=
  if negb (Ascii.eqb (at_pos d) b) then
    let sb := sb ++ [at_pos d] in
    let d := set_pos d (pos d + 1) in
    let (e, d) := atEof d 0 in
    if e then ([], d)
    else match n with
         | O => (sb, d)
         | S n => consumeUntil_loop n d b sb
         end
  else (sb, d).

Definition consumeUntil (d : deserializer) (b : byte) : bytes * deserializer :=
  let (e, d) := atEof d 0 in
  if e then ([], d)
  else consumeUntil_loop (remaining d) d b [].

Definition consumeKey (d : deserializer) : bytes * deserializer :=
  let d := consumeByte d dquote in
  let (s, d) := consumeUntil d dquote in
  let d := consumeByte d dquote in
  let d := consumeByte d ":" in
  let d := consumeWhitespace d in
  (s, d).

(** [isPrimitive] of the deserializer (the method; the function of the same
    name on kinds is [isPrimitive] above). *)
Definition d_isPrimitive (d : deserializer) : bool * deserializer :=
  let (b, d) := peekCurrent d in
  ((byte_le "a" b && byte_le b "z") || (byte_le "A" b && byte_le b "Z")
   || (byte_le "0" b && byte_le b "9") || Ascii.eqb b dquote || Ascii.eqb b "-", d).

Module PrimitiveType.
Inductive t := Invalid | String | Number | Bool | Nil.
End PrimitiveType.

(** Whitespace should be consumed before this function is called. *)
Definition parsePrimitiveType (d : deserializer)
  : (PrimitiveType.t * option error) * deserializer :=
  let (b, d) := peekCurrent d in
  if isWhitespace b then ((PrimitiveType.Invalid, Some ErrPeekedWhitespace), d)
  else
    let (b, d) := peekCurrent d in
    if Ascii.eqb b dquote then ((PrimitiveType.String, None), d)
    else if Ascii.eqb b "-" || (byte_le "0" b && byte_le b "9")
    then ((PrimitiveType.Number, None), d)
    else if Ascii.eqb b "t" || Ascii.eqb b "f" then ((PrimitiveType.Bool, None), d)
    else if Ascii.eqb b "n" then ((PrimitiveType.Nil, None), d)
    else
      let (b, d) := peekCurrent d in
      ((PrimitiveType.Invalid, Some (ErrExpectedPrimitive b)), d).

(** ** Outcomes of the walkers

    A call returns, panics (a Go run-time panic aborts the call), or is
    still running when the fuel given to the loops is used up. *)

Inductive panic :=
| IndexOutOfRange (i len : Z)                    (* runtime error: index out of range [i] with length len *)
| ReflectKind (method : string) (k : reflect.Kind) (* reflect: call of reflect.Value.method on k Value *)
| ReflectOther (what : string)                   (* any other panic raised inside package reflect *)
| Unserializable (k : reflect.Kind).             (* panic("Unserializable Type: " + kind) *)

Arguments ReflectKind method%_string k.
Arguments ReflectOther what%_string.

Inductive outcome (A : Type) :=
| Ret (a : A)
| Panic (p : panic)
| OutOfFuel.

Arguments Ret {A} a.
Arguments Panic {A} p.
Arguments OutOfFuel {A}.

Definition bind {A B} (m : outcome A) (k : A -> outcome B) : outcome B :=
  match m with
  | Ret a => k a
  | Panic p => Panic p
  | OutOfFuel => OutOfFuel
  end.

Notation "x <- m ;; k" := (bind m (fun x => k))
  (at level 61, m at next level, right associativity).
Notation "' pat <- m ;; k" := (bind m (fun x => match x with pat => k end))
  (at level 61, pat pattern, m at next level, right associativity).

(** [bytes.TrimRight(s, cutset)] *)
Fixpoint dropWhile (f : byte -> bool) (s : bytes) : bytes :=
  match s with
  | [] => []
  | c :: s' => if f c then dropWhile f s' else s
  end.

Definition TrimRight (s cutset : bytes) : bytes :=
  rev (dropWhile (fun c => existsb (Ascii.eqb c) cutset) (rev s)).

Definition isTerminator (b : byte) : bool :=
  Ascii.eqb b "}" || Ascii.eqb b "," || Ascii.eqb b "]".

(** The loop of [consumeUntilTerminator]:
    [for b != '}' && b != ',' && b != ']' { sb.WriteByte(b); d.consume(); b = d.peekCurrent() }].
    One unit of fuel is one iteration. *)
Fixpoint consumeUntilTerminator_loop (fuel : nat) (d : deserializer) (sb : bytes) (b : byte)
  : outcome (bytes * byte * deserializer) :=
  if negb (Ascii.eqb b "}") && negb (Ascii.eqb b ",") && negb (Ascii.eqb b "]") then
    match fuel with
    | O => OutOfFuel
    | S fuel =>
        let sb := sb ++ [b] in
        let d := snd (consume d) in
        let (b, d) := peekCurrent d in
        consumeUntilTerminator_loop fuel d sb b
    end
  else Ret (sb, b, d).

Definition consumeUntilTerminator (fuel : nat) (d : deserializer)
  : outcome (bytes * byte * deserializer) :=
  let (b, d) := peekCurrent d in
  '(sb, b, d) <- consumeUntilTerminator_loop fuel d [] b ;;
  Ret (TrimRight sb [" "; LF; TAB; CR], b, d).

(** ** strconv, integers

    Modelled from the documentation of Go's strconv (base 10, bit size
    64): [ParseUint] accepts a non-empty run of decimal digits without
    sign, [ParseInt] an optional sign followed by such a run; a value
    outside the 64-bit range is an error. *)

Module strconv.
Definition isDigit (b : byte) : bool := byte_le "0" b && byte_le b "9".

Definition digit (b : byte) : Z := Z.of_N (N_of_ascii b) - 48.

Fixpoint digits (s : bytes) (acc : Z) : option Z :=
  match s with
  | [] => Some acc
  | c :: s' => if isDigit c then digits s' (acc * 10 + digit c) else None
  end.

Definition ParseUint (s : bytes) : Z * option error :=
  match s with
  | [] => (0, Some (ErrStrconv "ParseUint" s))
  | _ => match digits s 0 with
         | Some n => if n <? 2 ^ 64 then (n, None)
                     else (2 ^ 64 - 1, Some (ErrStrconv "ParseUint" s))
         | None => (0, Some (ErrStrconv "ParseUint" s))
         end
  end.

Definition ParseInt (s : bytes) : Z * option error :=
  let '(neg, s0) := match s with
                    | c :: s' => if Ascii.eqb c "+" then (false, s')
                                 else if Ascii.eqb c "-" then (true, s')
                                 else (false, s)
                    | [] => (false, s)
                    end in
  match s0 with
  | [] => (0, Some (ErrStrconv "ParseInt" s))
  | _ => match digits s0 0 with
         | Some n =>
             if negb neg && (2 ^ 63 <=? n) then (2 ^ 63 - 1, Some (ErrStrconv "ParseInt" s))
             else if neg && (2 ^ 63 <? n) then (- 2 ^ 63, Some (ErrStrconv "ParseInt" s))
             else (if neg then - n else n, None)
         | None => (0, Some (ErrStrconv "ParseInt" s))
         end
  end.

Definition FormatInt (i : Z) : bytes :=
  list_ascii_of_string (NilZero.string_of_int (Z.to_int i)).

Definition FormatUint (u : Z) : bytes :=
  list_ascii_of_string (NilZero.string_of_uint (N.to_uint (Z.to_N u))).

Definition FormatBool (b : bool) : bytes := if b then B "true" else B "false".
End strconv.

(** What the program uses and the repository does not define.  A float is
    the bit pattern of its float64 value. *)
Record runtime := {
  ParseFloat : bytes -> Z * option error;  (* strconv.ParseFloat(s, 64) *)
  FormatFloat : Z -> Z -> bytes;           (* strconv.FormatFloat(f, 'f', -1, bits) *)
  float32 : Z -> Z;                        (* float64(float32(f)) *)
  growslice : nat -> nat -> nat            (* capacity after append, from old capacity and needed length *)
}.

Definition parseInt (value : bytes) : Z * option error := strconv.ParseInt value.
Definition parseUint (value : bytes) : Z * option error := strconv.ParseUint value.

Definition parseBool (value : bytes) : bool * option error :=
  match value with
  | [] => (false, Some ErrEmptyValue)
  | _ => if bytes_eqb value (B "true") then (true, None)
         else if bytes_eqb value (B "false") then (false, None)
         else (false, Some (ErrExpectedBool value))
  end.

Definition parseNil (value : bytes) : option error :=
  match value with
  | [] => Some ErrEmptyValue
  | _ => if negb (bytes_eqb value (B "null")) then Some (ErrExpectedNull value) else None
  end.

(** [s[i]] on a Go string or slice: a panic when the index is out of range. *)
Definition index (s : bytes) (i : Z) : outcome byte :=
  if (i <? 0) || (Z.of_nat (length s) <=? i) then Panic (IndexOutOfRange i (Z.of_nat (length s)))
  else match nth_error s (Z.to_nat i) with
       | Some b => Ret b
       | None => Panic (IndexOutOfRange i (Z.of_nat (length s)))
       end.

(** What [unescapeString] writes for the byte [ch] that follows a
    backslash: nothing when the escape is not known. *)
Definition unescapeByte (ch : byte) : bytes :=
  if Ascii.eqb ch backslash || Ascii.eqb ch "/" || Ascii.eqb ch dquote || Ascii.eqb ch "'"
  then [ch]
  else if Ascii.eqb ch "n" then [LF]
  else if Ascii.eqb ch "r" then [CR]
  else if Ascii.eqb ch "b" then [BS]
  else if Ascii.eqb ch "t" then [TAB]
  else if Ascii.eqb ch "f" then [FF]
  else [].

(** The loop of [unescapeString]; every iteration advances [i], so
    [length s] iterations are enough and [n] starts there. *)
Fixpoint unescapeString_loop (n : nat) (s : bytes) (i : Z) (sb : bytes) : outcome bytes :=
  if i <? Z.of_nat (length s) then
    match n with
    | O => Ret sb
    | S n =>
        delimiter <- index s i ;;
        let i := i + 1 in
        if Ascii.eqb delimiter backslash then
          ch <- index s i ;;
          let i := i + 1 in
          unescapeString_loop n s i (sb ++ unescapeByte ch)
        else unescapeString_loop n s i (sb ++ [delimiter])
    end
  else Ret sb.

Definition unescapeString (s : bytes) : outcome bytes :=
  unescapeString_loop (length s) s 0 [].

Definition parseString (value : bytes) : outcome (bytes * option error) :=
  b0 <- index value 0 ;;
  if negb (Ascii.eqb b0 dquote) then Ret ([], Some (ErrStringStart b0))
  else
    let value := skipn 1 value in
    bl <- index value (Z.of_nat (length value) - 1) ;;
    if negb (Ascii.eqb bl dquote) then Ret ([], Some (ErrStringEnd bl))
    else
      let value := firstn (length value - 1) value in
      strValue <- unescapeString value ;;
      Ret (strValue, None).

(** ** Types and values seen through package reflect

    Struct fields are taken to be exported (settable), and the target is
    reached through a pointer, as [reflect.ValueOf(d.i).Elem()] requires.
    A slice is its backing store (as long as its capacity), its length and
    whether it is nil. *)

Inductive type :=
| TBasic (k : reflect.Kind)
| TStruct (name : bytes) (fields : list (bytes * type))
| TSlice (elem : type)
| TArray (n : nat) (elem : type).

Inductive value :=
| VBool (b : bool)
| VInt (k : reflect.Kind) (i : Z)
| VUint (k : reflect.Kind) (u : Z)
| VFloat (k : reflect.Kind) (f : Z)
| VString (s : bytes)
| VStruct (name : bytes) (fields : list (bytes * value))
| VSlice (elem : type) (isnil : bool) (store : list value) (len : nat)
| VArray (elem : type) (elems : list value)
| VOther (k : reflect.Kind).

Definition isIntKind (k : reflect.Kind) : bool :=
  match k with
  | reflect.Int8 | reflect.Int16 | reflect.Int32 | reflect.Int64 | reflect.Int => true
  | _ => false
  end.

Definition isUintKind (k : reflect.Kind) : bool :=
  match k with
  | reflect.Uint8 | reflect.Uint16 | reflect.Uint32 | reflect.Uint64 | reflect.Uint => true
  | _ => false
  end.

Definition isFloatKind (k : reflect.Kind) : bool :=
  match k with
  | reflect.Float32 | reflect.Float64 => true
  | _ => false
  end.

Definition Kind (v : value) : reflect.Kind :=
  match v with
  | VBool _ => reflect.Bool
  | VInt k _ => k
  | VUint k _ => k
  | VFloat k _ => k
  | VString _ => reflect.String
  | VStruct _ _ => reflect.Struct
  | VSlice _ _ _ _ => reflect.Slice
  | VArray _ _ => reflect.Array
  | VOther k => k
  end.

Definition TypeKind (t : type) : reflect.Kind :=
  match t with
  | TBasic k => k
  | TStruct _ _ => reflect.Struct
  | TSlice _ => reflect.Slice
  | TArray _ _ => reflect.Array
  end.

(** [reflect.Zero(t)] *)
Fixpoint Zero (t : type) : value :=
  match t with
  | TBasic k =>
      if reflect.eqb k reflect.Bool then VBool false
      else if isIntKind k then VInt k 0
      else if isUintKind k then VUint k 0
      else if isFloatKind k then VFloat k 0
      else if reflect.eqb k reflect.String then VString []
      else VOther k
  | TStruct name fields =>
      VStruct name ((fix zeros (fs : list (bytes * type)) : list (bytes * value) :=
                       match fs with
                       | [] => []
                       | (f, t) :: fs' => (f, Zero t) :: zeros fs'
                       end) fields)
  | TSlice elem => VSlice elem true [] 0
  | TArray n elem => VArray elem (repeat (Zero elem) n)
  end.

Definition bitSize (k : reflect.Kind) : Z :=
  match k with
  | reflect.Int8 | reflect.Uint8 => 8
  | reflect.Int16 | reflect.Uint16 => 16
  | reflect.Int32 | reflect.Uint32 | reflect.Float32 => 32
  | _ => 64
  end.

(** Conversion of an int64 to a signed integer of [bits] bits, and of a
    uint64 to an unsigned one: the high bits are dropped. *)
Definition wrapInt (bits x : Z) : Z :=
  (x + 2 ^ (bits - 1)) mod 2 ^ bits - 2 ^ (bits - 1).

Definition wrapUint (bits x : Z) : Z := x mod 2 ^ bits.

Definition SetInt (v : value) (x : Z) : outcome value :=
  match v with
  | VInt k _ => Ret (VInt k (wrapInt (bitSize k) x))
  | _ => Panic (ReflectKind "SetInt" (Kind v))
  end.

Definition SetUint (v : value) (x : Z) : outcome value :=
  match v with
  | VUint k _ => Ret (VUint k (wrapUint (bitSize k) x))
  | _ => Panic (ReflectKind "SetUint" (Kind v))
  end.

Definition SetFloat (rt : runtime) (v : value) (x : Z) : outcome value :=
  match v with
  | VFloat k _ => Ret (VFloat k (if reflect.eqb k reflect.Float32 then float32 rt x else x))
  | _ => Panic (ReflectKind "SetFloat" (Kind v))
  end.

Definition SetBool (v : value) (x : bool) : outcome value :=
  match v with
  | VBool _ => Ret (VBool x)
  | _ => Panic (ReflectKind "SetBool" (Kind v))
  end.

Definition SetString (v : value) (x : bytes) : outcome value :=
  match v with
  | VString _ => Ret (VString x)
  | _ => Panic (ReflectKind "SetString" (Kind v))
  end.

Definition Len (v : value) : outcome nat :=
  match v with
  | VSlice _ _ _ len => Ret len
  | VArray _ elems => Ret (length elems)
  | VString s => Ret (length s)
  | _ => Panic (ReflectKind "Len" (Kind v))
  end.

Definition Cap (v : value) : outcome nat :=
  match v with
  | VSlice _ _ store _ => Ret (length store)
  | VArray _ elems => Ret (length elems)
  | _ => Panic (ReflectKind "Cap" (Kind v))
  end.

(** [v.Type().Elem()] *)
Definition Elem (v : value) : outcome type :=
  match v with
  | VSlice elem _ _ _ => Ret elem
  | VArray elem _ => Ret elem
  | _ => Panic (ReflectKind "Elem" (Kind v))
  end.

Fixpoint replace_nth {A} (l : list A) (i : nat) (x : A) : list A :=
  match l, i with
  | [], _ => []
  | _ :: l', O => x :: l'
  | y :: l', S i' => y :: replace_nth l' i' x
  end.

Definition Index (v : value) (i : nat) : outcome value :=
  match v with
  | VSlice _ _ store len =>
      if (i <? len)%nat then
        match nth_error store i with
        | Some x => Ret x
        | None => Panic (ReflectOther "reflect: slice index out of range")
        end
      else Panic (ReflectOther "reflect: slice index out of range")
  | VArray _ elems =>
      match nth_error elems i with
      | Some x => Ret x
      | None => Panic (ReflectOther "reflect: array index out of range")
      end
  | _ => Panic (ReflectKind "Index" (Kind v))
  end.

(** A store through the handle [v.Index(i)], which [Index] has returned. *)
Definition SetIndex (v : value) (i : nat) (x : value) : value :=
  match v with
  | VSlice elem isnil store len => VSlice elem isnil (replace_nth store i x) len
  | VArray elem elems => VArray elem (replace_nth elems i x)
  | _ => v
  end.

Definition SetLen (v : value) (n : nat) : outcome value :=
  match v with
  | VSlice elem isnil store _ =>
      if (length store <? n)%nat then Panic (ReflectOther "reflect: slice length out of range in SetLen")
      else Ret (VSlice elem isnil store n)
  | _ => Panic (ReflectKind "SetLen" (Kind v))
  end.

(** [newv := reflect.MakeSlice(v.Type(), len, cap); reflect.Copy(newv, v)] *)
Definition MakeSlice (elem : type) (len cap : nat) : outcome value :=
  if (cap <? len)%nat then Panic (ReflectOther "reflect.MakeSlice: len > cap")
  else Ret (VSlice elem false (repeat (Zero elem) cap) len).

Definition Copy (dst src : value) : outcome value :=
  match dst, src with
  | VSlice elem isnil dstore dlen, VSlice _ _ sstore slen =>
      let n := Nat.min dlen slen in
      Ret (VSlice elem isnil (firstn n sstore ++ skipn n dstore) dlen)
  | _, _ => Panic (ReflectKind "Copy" (Kind dst))
  end.

(** [reflect.Append(v, x)], [x] being a [reflect.ValueOf] of a Go bool or
    string, whose type is [t]: the element type has to be that type. *)
Definition type_eqb_basic (t : type) (k : reflect.Kind) : bool :=
  match t with
  | TBasic k' => reflect.eqb k' k
  | _ => false
  end.

Definition Append (rt : runtime) (v : value) (x : value) : outcome value :=
  match v with
  | VSlice elem isnil store len =>
      if negb (type_eqb_basic elem (Kind x))
      then Panic (ReflectOther "reflect.Set: value is not assignable to the element type")
      else if (len <? length store)%nat
      then Ret (VSlice elem false (replace_nth store len x) (S len))
      else
        let newcap := Nat.max (S len) (growslice rt (length store) (S len)) in
        Ret (VSlice elem false
               (firstn len store ++ [x] ++ repeat (Zero elem) (newcap - S len)) (S len))
  | _ => Panic (ReflectKind "Append" (Kind v))
  end.

Fixpoint lookup_field (fields : list (bytes * value)) (key : bytes) : option value :=
  match fields with
  | [] => None
  | (f, x) :: fields' => if bytes_eqb f key then Some x else lookup_field fields' key
  end.

Fixpoint store_field (fields : list (bytes * value)) (key : bytes) (x : value)
  : list (bytes * value) :=
  match fields with
  | [] => []
  | (f, y) :: fields' =>
      if bytes_eqb f key then (f, x) :: fields' else (f, y) :: store_field fields' key x
  end.

(** [v.FieldByName(key)]: [None] is the invalid Value. *)
Definition FieldByName (v : value) (key : bytes) : outcome (option value) :=
  match v with
  | VStruct _ fields => Ret (lookup_field fields key)
  | _ => Panic (ReflectKind "FieldByName" (Kind v))
  end.

(** A store through the handle returned by [FieldByName]. *)
Definition SetField (v : value) (key : bytes) (x : value) : value :=
  match v with
  | VStruct name fields => VStruct name (store_field fields key x)
  | _ => v
  end.

Definition TypeName (v : value) : bytes :=
  match v with
  | VStruct name _ => name
  | _ => []
  end.

(** ** The deserializer *)

Section Deserializer.

Variable rt : runtime.

(** What a step of a walker's loop hands back: the cursor, the target and
    whether the walker executed [return]. *)
Definition step : Type := deserializer * value * bool.

Definition returned (d : deserializer) (v : value) : outcome step := Ret (d, v, true).
Definition goes_on (d : deserializer) (v : value) : outcome step := Ret (d, v, false).

(** [if arrayIndex >= v.Cap() { ... }; if arrayIndex >= v.Len() { v.SetLen(arrayIndex + 1) }] *)
Definition growSlice (v : value) (arrayIndex : nat) : outcome value :=
  cap <- Cap v ;;
  v <- (if (cap <=? arrayIndex)%nat then
          let newcap := (cap + cap / 2)%nat in
          let newcap := if (newcap <? 4)%nat then 4%nat else newcap in
          elem <- Elem v ;;
          len <- Len v ;;
          newv <- MakeSlice elem len newcap ;;
          Copy newv v
        else Ret v) ;;
  len <- Len v ;;
  if (len <=? arrayIndex)%nat then SetLen v (arrayIndex + 1) else Ret v.

(** [for ; arrayIndex < v.Len(); arrayIndex++ { v.Index(arrayIndex).Set(z) }],
    run [n] times. *)
Fixpoint zeroFill (n : nat) (v z : value) (arrayIndex : nat) : outcome (value * nat) :=
  match n with
  | O => Ret (v, arrayIndex)
  | S n =>
      _ <- Index v arrayIndex ;;
      zeroFill n (SetIndex v arrayIndex z) z (S arrayIndex)
  end.

(** The branch [else if d.isPrimitive()] of [deserializeArray], after the
    test. *)
Definition arrayPrimitive (fuel : nat) (d : deserializer) (v : value) (arrayIndex : nat)
  : outcome step :=
  let '((primitiveType, err), d) := parsePrimitiveType d in
  match err with
  | Some e => returned (set_err d e) v
  | None =>
      '(data, terminator, d) <- consumeUntilTerminator fuel d ;;
      '(d, v, ret) <-
        match primitiveType with
        | PrimitiveType.Number =>
            elem <- Elem v ;;
            let k := TypeKind elem in
            if isUintKind k then
              let (uin, err) := parseUint data in
              match err with
              | Some e => returned (set_err d e) v
              | None => x <- Index v arrayIndex ;;
                        x <- SetUint x uin ;;
                        goes_on d (SetIndex v arrayIndex x)
              end
            else if isIntKind k then
              let (i, err) := parseInt data in
              match err with
              | Some e => returned (set_err d e) v
              | None => x <- Index v arrayIndex ;;
                        x <- SetInt x i ;;
                        goes_on d (SetIndex v arrayIndex x)
              end
            else if isFloatKind k then
              let (f, err) := ParseFloat rt data in
              match err with
              | Some e => returned (set_err d e) v
              | None => x <- Index v arrayIndex ;;
                        x <- SetFloat rt x f ;;
                        goes_on d (SetIndex v arrayIndex x)
              end
            else goes_on d v
        | PrimitiveType.Bool =>
            let (b, err) := parseBool data in
            match err with
            | Some e => returned (set_err d e) v
            | None => v <- Append rt v (VBool b) ;; goes_on d v
            end
        | PrimitiveType.String =>
            '(s, err) <- parseString data ;;
            match err with
            | Some e => returned (set_err d e) v
            | None => v <- Append rt v (VString s) ;; goes_on d v
            end
        | PrimitiveType.Nil =>
            match parseNil data with
            | Some e => returned (set_err d e) v
            | None => goes_on d v
            end
        | PrimitiveType.Invalid => goes_on d v
        end ;;
      if ret then returned d v
      else
        let d := if Ascii.eqb terminator "," then consumeByte d terminator else d in
        goes_on d v
  end.

(** The branch [else if d.isPrimitive()] of [deserializeObject]: [v] is the
    struct, [keyFieldValue] the field the key has resolved to. *)
Definition objectPrimitive (fuel : nat) (d : deserializer) (v : value)
    (key : bytes) (keyFieldValue : value) : outcome step :=
  let '((primitiveType, err), d) := parsePrimitiveType d in
  match err with
  | Some e => returned (set_err d e) v
  | None =>
      '(data, terminator, d) <- consumeUntilTerminator fuel d ;;
      '(d, v, ret) <-
        match primitiveType with
        | PrimitiveType.Number =>
            let k := Kind v in
            if isUintKind k then
              let (uin, err) := parseUint data in
              match err with
              | Some e => returned (set_err d e) v
              | None => x <- SetUint keyFieldValue uin ;; goes_on d (SetField v key x)
              end
            else if isIntKind k then
              let (i, err) := parseInt data in
              match err with
              | Some e => returned (set_err d e) v
              | None => x <- SetInt keyFieldValue i ;; goes_on d (SetField v key x)
              end
            else if isFloatKind k then
              let (f, err) := ParseFloat rt data in
              match err with
              | Some e => returned (set_err d e) v
              | None => x <- SetFloat rt keyFieldValue f ;; goes_on d (SetField v key x)
              end
            else goes_on d v
        | PrimitiveType.Bool =>
            let (b, err) := parseBool data in
            match err with
            | Some e => returned (set_err d e) v
            | None => x <- SetBool keyFieldValue b ;; goes_on d (SetField v key x)
            end
        | PrimitiveType.String =>
            '(s, err) <- parseString data ;;
            match err with
            | Some e => returned (set_err d e) v
            | None => x <- SetString keyFieldValue s ;; goes_on d (SetField v key x)
            end
        | PrimitiveType.Nil =>
            match parseNil data with
            | Some e => returned (set_err d e) v
            | None => goes_on d v
            end
        | PrimitiveType.Invalid => goes_on d v
        end ;;
      if ret then returned d v
      else
        let d := if Ascii.eqb terminator "," then consumeByte d terminator else d in
        goes_on d v
  end.

(** [deserializeArray] and [deserializeObject] with their [for] loops.
    One unit of fuel is one call or one iteration. *)
Fixpoint deserializeArray (fuel : nat) (d : deserializer) (v : value) {struct fuel}
  : outcome (deserializer * value) :=
  match fuel with
  | O => OutOfFuel
  | S fuel =>
      if negb (isJsonArray (Kind v)) then Ret (set_err d (ErrNotJsonArray (Kind v)), v)
      else
        let d := consumeByte d "[" in
        let d := consumeWhitespace d in
        if hasError d then Ret (d, v)
        else
          '(d, v, ret) <- arrayLoop fuel d v 0 ;;
          if ret then Ret (d, v)
          else
            let d := consumeWhitespace d in
            let d := consumeByte d "]" in
            Ret (d, v)
  end

with arrayLoop (fuel : nat) (d : deserializer) (v : value) (arrayIndex : nat) {struct fuel}
  : outcome step :=
  match fuel with
  | O => OutOfFuel
  | S fuel =>
      let (b, d) := peekCurrent d in
      if Ascii.eqb b "]" then goes_on d v
      else
        v <- (if reflect.eqb (Kind v) reflect.Slice then growSlice v arrayIndex else Ret v) ;;
        len <- Len v ;;
        '(d, v, ret) <-
          (if (arrayIndex <? len)%nat then
             let (b, d) := peekCurrent d in
             if Ascii.eqb b "[" then
               x <- Index v arrayIndex ;;
               '(d, x) <- deserializeArray fuel d x ;;
               let v := SetIndex v arrayIndex x in
               if hasError d then returned d v
               else
                 let (b, d) := peekCurrent d in
                 goes_on (if Ascii.eqb b "," then consumeByte d "," else d) v
             else
               let (b, d) := peekCurrent d in
               if Ascii.eqb b "{" then
                 x <- Index v arrayIndex ;;
                 '(d, x) <- deserializeObject fuel d x ;;
                 let v := SetIndex v arrayIndex x in
                 if hasError d then returned d v
                 else
                   let (b, d) := peekCurrent d in
                   goes_on (if Ascii.eqb b "," then consumeByte d "," else d) v
               else
                 let (p, d) := d_isPrimitive d in
                 if p then arrayPrimitive fuel d v arrayIndex
                 else
                   let (b, d) := peekCurrent d in
                   returned (set_err d (ErrExpectedValueInLoop b (Z.of_nat arrayIndex))) v
           else goes_on d v) ;;
        if ret then returned d v
        else
          let arrayIndex := S arrayIndex in
          let d := consumeWhitespace d in
          let (b, d) := peekCurrent d in
          if Ascii.eqb b "]" then goes_on d v
          else
            len <- Len v ;;
            '(v, arrayIndex) <-
              (if (arrayIndex <? len)%nat then
                 if reflect.eqb (Kind v) reflect.Array then
                   elem <- Elem v ;;
                   zeroFill (len - arrayIndex) v (Zero elem) arrayIndex
                 else Ret (v, arrayIndex)
               else
                 v <- SetLen v arrayIndex ;; Ret (v, arrayIndex)) ;;
            arrayLoop fuel d v arrayIndex
  end

with deserializeObject (fuel : nat) (d : deserializer) (v : value) {struct fuel}
  : outcome (deserializer * value) :=
  match fuel with
  | O => OutOfFuel
  | S fuel =>
      let d := consumeByte d "{" in
      let d := consumeWhitespace d in
      if hasError d then Ret (d, v)
      else
        '(d, v, ret) <- objectLoop fuel d v ;;
        if ret then Ret (d, v)
        else
          let d := consumeWhitespace d in
          let d := consumeByte d "}" in
          Ret (d, v)
  end

with objectLoop (fuel : nat) (d : deserializer) (v : value) {struct fuel} : outcome step :=
  match fuel with
  | O => OutOfFuel
  | S fuel =>
      let (b, d) := peekCurrent d in
      if Ascii.eqb b "}" then goes_on d v
      else
        let (key, d) := consumeKey d in
        if hasError d then returned d v
        else
          keyFieldValue <- FieldByName v key ;;
          match keyFieldValue with
          | None => returned (set_err d (ErrKeyNotFound key (TypeName v))) v
          | Some keyFieldValue =>
              '(d, v, ret) <-
                (let (b, d) := peekCurrent d in
                 if Ascii.eqb b "[" then
                   '(d, x) <- deserializeArray fuel d keyFieldValue ;;
                   let v := SetField v key x in
                   if hasError d then returned d v
                   else
                     let (b, d) := peekCurrent d in
                     goes_on (if Ascii.eqb b ","
                              then consumeWhitespace (consumeByte d ",") else d) v
                 else
                   let (b, d) := peekCurrent d in
                   if Ascii.eqb b "{" then
                     '(d, x) <- deserializeObject fuel d keyFieldValue ;;
                     let v := SetField v key x in
                     if hasError d then returned d v
                     else
                       let (b, d) := peekCurrent d in
                       goes_on (if Ascii.eqb b ","
                                then consumeWhitespace (consumeByte d ",") else d) v
                   else
                     let (p, d) := d_isPrimitive d in
                     if p then objectPrimitive fuel d v key keyFieldValue
                     else
                       let (b, d) := peekCurrent d in
                       returned (set_err d (ErrExpectedValue b)) v) ;;
              if ret then returned d v
              else objectLoop fuel (consumeWhitespace d) v
          end
  end.

(** [deserialize]: the target [i] is the value behind the pointer. *)
Definition deserialize (fuel : nat) (d : deserializer) (i : value)
  : outcome (option error * value) :=
  if isJsonArray (Kind i) then
    '(d, v) <- deserializeArray fuel d i ;;
    if hasError d then Ret (err d, v) else Ret (None, v)
  else if reflect.eqb (Kind i) reflect.Struct then
    '(d, v) <- deserializeObject fuel d i ;;
    if hasError d then Ret (err d, v) else Ret (None, v)
  else Ret (None, i).

(** [Deserialize(json, &i)]: the returned error and the target afterwards. *)
Definition Deserialize (fuel : nat) (j : bytes) (i : value) : outcome (option error * value) :=
  deserialize fuel (makeDeserializer j) i.

End Deserializer.

(** ** The serializer

    [sjson] is the content of the [strings.Builder] field [json]. *)

Record serializer := mkSerializer {
  sjson : bytes;
  indentLevel : Z
}.

Definition WriteString (s : serializer) (x : bytes) : serializer :=
  {| sjson := sjson s ++ x; indentLevel := indentLevel s |}.

Definition WriteByte (s : serializer) (x : byte) : serializer := WriteString s [x].

Definition set_indent (s : serializer) (n : Z) : serializer :=
  {| sjson := sjson s; indentLevel := n |}.

(** [for i := 0; i < s.indentLevel; i++ { s.json.WriteByte('\t') }] *)
Definition appendTabs (s : serializer) : serializer :=
  WriteString s (repeat TAB (Z.to_nat (indentLevel s))).

Definition startObject (s : serializer) : serializer :=
  let s := WriteString s ["{"; LF] in
  let s := set_indent s (indentLevel s + 1) in
  appendTabs s.

Definition endObject (s : serializer) : serializer :=
  let s := WriteString s [LF] in
  let s := set_indent s (indentLevel s - 1) in
  let s := appendTabs s in
  WriteString s ["}"].

Definition startArray (s : serializer) : serializer :=
  let s := WriteString s ["["; LF] in
  let s := set_indent s (indentLevel s + 1) in
  appendTabs s.

Definition endArray (s : serializer) : serializer :=
  let s := WriteString s [LF] in
  let s := set_indent s (indentLevel s - 1) in
  let s := appendTabs s in
  WriteString s ["]"].

Definition appendComma (s : serializer) : serializer :=
  let s := WriteByte s "," in
  let s := WriteByte s LF in
  appendTabs s.

Definition appendKey (s : serializer) (name : bytes) : serializer :=
  let s := WriteString s [dquote] in
  let s := WriteString s name in
  WriteString s [dquote; ":"; " "].

Definition shouldAppendComma (numField : nat) (fieldIndex : nat) : bool :=
  Z.of_nat fieldIndex <? Z.of_nat numField - 1.

(** *** utf8

    [for i := range s] over a Go string visits the index of the first byte
    of every UTF-8 sequence, and a byte that starts no valid sequence on
    its own.  Modelled from the Go language specification and unicode/utf8:
    the width of the sequence at the head of [s]. *)
Definition inRange (lo hi : N) (b : byte) : bool :=
  ((lo <=? N_of_ascii b) && (N_of_ascii b <=? hi))%N.

Definition runeWidth (s : bytes) : nat :=
  match s with
  | [] => 0%nat
  | b0 :: s1 =>
      let cont := inRange 128 191 in
      if inRange 0 127 b0 then 1%nat
      else if inRange 194 223 b0 then
        match s1 with
        | b1 :: _ => if cont b1 then 2%nat else 1%nat
        | _ => 1%nat
        end
      else if inRange 224 239 b0 then
        match s1 with
        | b1 :: b2 :: _ =>
            let lo := if inRange 224 224 b0 then 160%N else 128%N in
            let hi := if inRange 237 237 b0 then 159%N else 191%N in
            if inRange lo hi b1 && cont b2 then 3%nat else 1%nat
        | _ => 1%nat
        end
      else if inRange 240 244 b0 then
        match s1 with
        | b1 :: b2 :: b3 :: _ =>
            let lo := if inRange 240 240 b0 then 144%N else 128%N in
            let hi := if inRange 244 244 b0 then 143%N else 191%N in
            if inRange lo hi b1 && cont b2 && cont b3 then 4%nat else 1%nat
        | _ => 1%nat
        end
      else 1%nat
  end.

(** What [escapeString] writes for the byte [c]. *)
Definition escapeByte (c : byte) : bytes :=
  if Ascii.eqb c backslash || Ascii.eqb c dquote then [backslash; c]
  else if Ascii.eqb c "/" then [backslash; c]
  else if Ascii.eqb c BS then [backslash; "b"]
  else if Ascii.eqb c TAB then [backslash; "t"]
  else if Ascii.eqb c LF then [backslash; "n"]
  else if Ascii.eqb c FF then [backslash; "f"]
  else if Ascii.eqb c CR then [backslash; "r"]
  else [c].

(** [for i := range s { c := s[i]; ... }]: [n] bounds the iterations by the
    length of [s]. *)
Fixpoint escapeString_loop (n : nat) (s : bytes) : bytes :=
  match n, s with
  | S n, c :: _ => escapeByte c ++ escapeString_loop n (skipn (runeWidth s) s)
  | _, _ => []
  end.

Definition escapeString (s : bytes) : bytes := escapeString_loop (length s) s.

Section Serializer.

Variable rt : runtime.

Definition serializePrimitive (s : serializer) (fieldValue : value) : serializer :=
  match fieldValue with
  | VBool b => WriteString s (strconv.FormatBool b)
  | VInt k i => if isIntKind k then WriteString s (strconv.FormatInt i) else s
  | VUint k u => if isUintKind k then WriteString s (strconv.FormatUint u) else s
  | VFloat k f => if isFloatKind k then WriteString s (FormatFloat rt f (bitSize k)) else s
  | VString str =>
      let s := WriteString s [dquote] in
      let s := WriteString s (escapeString str) in
      WriteString s [dquote]
  | _ => s
  end.

Fixpoint serializeArray (s : serializer) (i : value) {struct i} : outcome serializer :=
  match i with
  | VSlice _ isnil store len =>
      if negb isnil then
        let s := startArray s in
        s <- (fix elements (l : list value) (arrayIndex : nat) (s : serializer) {struct l}
                : outcome serializer :=
                if (arrayIndex <? len)%nat then
                  match l with
                  | [] => Panic (ReflectOther "reflect: slice index out of range")
                  | x :: l' =>
                      s <- (if reflect.eqb (Kind x) reflect.Struct then serializeObject s x
                            else if isPrimitive (Kind x) then Ret (serializePrimitive s x)
                            else if isJsonArray (Kind x) then serializeArray s x
                            else Ret s) ;;
                      let s := if Z.of_nat arrayIndex <? Z.of_nat len - 1
                               then appendComma s else s in
                      elements l' (S arrayIndex) s
                  end
                else Ret s) store 0%nat s ;;
        Ret (endArray s)
      else Ret (WriteString s (B "null"))
  | _ => Panic (ReflectKind "IsNil" (Kind i))
  end

with serializeObject (s : serializer) (i : value) {struct i} : outcome serializer :=
  match i with
  | VStruct _ fields =>
      let s := startObject s in
      s <- (fix each (l : list (bytes * value)) (i : nat) (s : serializer) {struct l}
              : outcome serializer :=
              match l with
              | [] => Ret s
              | (name, fieldValue) :: l' =>
                  let s := appendKey s name in
                  s <- (if isPrimitive (Kind fieldValue)
                        then Ret (serializePrimitive s fieldValue)
                        else if reflect.eqb (Kind fieldValue) reflect.Struct
                        then serializeObject s fieldValue
                        else if isJsonArray (Kind fieldValue)
                        then serializeArray s fieldValue
                        else Panic (Unserializable (Kind fieldValue))) ;;
                  let s := if shouldAppendComma (length fields) i then appendComma s else s in
                  each l' (S i) s
              end) fields 0%nat s ;;
      Ret (endObject s)
  | _ => Panic (ReflectKind "NumField" (Kind i))
  end.

Definition makeSerializer : serializer := {| sjson := []; indentLevel := 0 |}.

Definition serialize (s : serializer) (i : value) : outcome serializer :=
  if reflect.eqb (Kind i) reflect.Struct then serializeObject s i
  else if isJsonArray (Kind i) then serializeArray s i
  else Ret s.

(** [Serialize(i)]: the error it returns is always nil. *)
Definition Serialize (i : value) : outcome bytes :=
  s <- serialize makeSerializer i ;;
  Ret (sjson s).

End Serializer.

(** * Vocabulary of the statements, and the data of the examples *)

(** A call ends with [r] when every large enough amount of fuel gives [r];
    it diverges when no amount of fuel lets it end. *)
Definition ends_with {A} (run : nat -> outcome A) (r : outcome A) : Prop :=
  r <> OutOfFuel /\ exists n, forall fuel, (n <= fuel)%nat -> run fuel = r.

Definition diverges {A} (run : nat -> outcome A) : Prop :=
  forall fuel, run fuel = OutOfFuel.

(** [a] is [b], or has run out of fuel. *)
Definition below {A} (a b : outcome A) : Prop := a = OutOfFuel \/ a = b.

(** The operations never move the position backwards and never touch the
    buffer or [eof]. *)
Definition advances (d d' : deserializer) : Prop :=
  json d' = json d /\ eof d' = eof d /\ pos d <= pos d'.

(** A cursor made by [makeDeserializer] and moved by the operations above
    keeps [0 <= pos] and [eof = len(json) - 1]; a read [d.json[d.pos]] that
    [atEof(0)] guards is then inside the buffer. *)
Definition cursor_ok d : Prop :=
  0 <= pos d /\ eof d = Z.of_nat (length (json d)) - 1.

(** The cursor in [consumeKey] on the document [{x}], once the opening
    quote of the key has been missed. *)
Definition missed_quote : deserializer :=
  consumeByte (consumeByte (makeDeserializer (B "{x}")) "{") dquote.

(** The same cursor after [consumeUntil] has run to the end of the buffer. *)
Definition past_end : deserializer := snd (consumeUntil missed_quote dquote).

(** The record of the spec's examples: a text field and an integer field. *)
Definition person_type : type :=
  TStruct (B "Person") [(B "Name", TBasic reflect.String); (B "Age", TBasic reflect.Int)].

Definition person (name : bytes) (age : Z) : value :=
  VStruct (B "Person") [(B "Name", VString name); (B "Age", VInt reflect.Int age)].

(** No terminator between the position and the end of the buffer. *)
Definition no_terminator_ahead (d : deserializer) : Prop :=
  forallb (fun c => negb (isTerminator c)) (skipn (Z.to_nat (pos d)) (json d)) = true.

(** The cursor stands before a key whose value is a primitive literal, and
    no terminator follows the literal. *)
Definition literal_unterminated (d : deserializer) (v : value) : bool :=
  let (b, d) := peekCurrent d in
  negb (Ascii.eqb b "}") &&
  let (key, d) := consumeKey d in
  negb (hasError d) &&
  match v with
  | VStruct _ fields =>
      match lookup_field fields key with
      | Some _ =>
          let (b, d) := peekCurrent d in
          negb (Ascii.eqb b "[") &&
          let (b, d) := peekCurrent d in
          negb (Ascii.eqb b "{") &&
          let (p, d) := d_isPrimitive d in
          p &&
          match parsePrimitiveType d with
          | (_, None, d) =>
              (0 <=? pos d) &&
              forallb (fun c => negb (isTerminator c)) (skipn (Z.to_nat (pos d)) (json d))
          | _ => false
          end
      | None => false
      end
  | _ => false
  end.

(** A Go array of int. *)
Definition int_array (l : list Z) : value :=
  VArray (TBasic reflect.Int) (map (VInt reflect.Int) l).

(** A record with a nested record and a text field after it. *)
Definition nested_type : type :=
  TStruct (B "Outer")
    [(B "A", TStruct (B "Inner") [(B "B", TBasic reflect.String)]);
     (B "C", TBasic reflect.String)].

Definition nested (b c : bytes) : value :=
  VStruct (B "Outer")
    [(B "A", VStruct (B "Inner") [(B "B", VString b)]); (B "C", VString c)].

(** A record with one text field. *)
Definition holder_type : type := TStruct (B "T") [(B "S", TBasic reflect.String)].

Definition holder (s : bytes) : value := VStruct (B "T") [(B "S", VString s)].

(** The text [Serialize] gives for the person Alice, 30. *)
Definition person_text : bytes :=
  B "{" ++ [LF; TAB] ++ js "'Name': 'Alice'," ++ [LF; TAB] ++ js "'Age': 30" ++ [LF] ++ B "}".

(** The text of an empty sequence at the indentation level [indent]. *)
Definition empty_array_text (indent : Z) : bytes :=
  ["["; LF] ++ repeat TAB (Z.to_nat (indent + 1)) ++ [LF]
            ++ repeat TAB (Z.to_nat (indent + 1 - 1)) ++ ["]"].

(** A byte below 0x80. *)
Definition is_ascii (c : byte) : bool := (N_of_ascii c <? 128)%N.

(** [cur text p] is the cursor of [makeDeserializer text] moved to the
    position [p], without an error. *)
Definition cur (text : bytes) (p : nat) : deserializer :=
  {| json := text; pos := Z.of_nat p; eof := Z.of_nat (length text) - 1; err := None |}.

(** The text [Serialize] gives for [holder s]. *)
Definition holder_text (s : bytes) : bytes :=
  ["{"; LF; TAB; dquote; "S"; dquote; ":"; " "; dquote] ++ escapeString s ++ [dquote; LF; "}"].

(** The examples without variables hold no float: they are run with a
    runtime that rejects every float literal and doubles the capacity on
    append.  The theorems stated for a runtime [rt] hold for every one. *)
Definition example_runtime : runtime :=
  {| ParseFloat := fun s => (0, Some (ErrStrconv "ParseFloat" s));
     FormatFloat := fun _ _ => [];
     float32 := fun f => f;
     growslice := fun old need => Nat.max (2 * old) need |}.

(** A text with a quote, a backslash, a slash and the control characters
    of the escape table. *)
Definition escaped_sample : bytes :=
  ["a"; dquote; "b"; backslash; "/"; BS; TAB; LF; FF; CR; " "; "z"].

(** [peek]: the slice [d.json[d.pos : d.pos+1+offset]].  The slice is
    taken after [atEof(1 + offset)] has returned false; on a cursor of the
    program its bounds are then inside the buffer. *)
Definition peek (d : deserializer) (offset : Z) : bytes * deserializer :=
  let (e, d) := atEof d (1 + offset) in
  if e then ([], d)
  else (firstn (Z.to_nat (1 + offset)) (skipn (Z.to_nat (pos d)) (json d)), d).

(** [isNull] *)
Definition isNull (d : deserializer) : bool * deserializer :=
  let (e, d) := atEof d 4 in
  if e then (false, d)
  else
    let (p, d) := peek d 4 in
    (bytes_eqb p (B "null"), d).

(** What holds of a returned value: nothing is asked of a panic or of a
    run that is out of fuel. *)
Definition on_return {A} (P : A -> Prop) (o : outcome A) : Prop :=
  match o with
  | Ret a => P a
  | _ => True
  end.

(** What an operation does to the cursor: the document and the index of
    its last byte are kept, the position does not decrease, and a position
    that is at most one behind the last byte stays so. *)
Definition moves (d d' : deserializer) : Prop :=
  json d' = json d /\ eof d' = eof d /\ pos d <= pos d' /\
  (pos d <= eof d + 1 -> pos d' <= eof d + 1).

(** The longest prefix of [s] whose bytes all satisfy [f]; [dropWhile f s]
    is what follows it. *)
Fixpoint takeWhile (f : byte -> bool) (s : bytes) : bytes :=
  match s with
  | [] => []
  | c :: s' => if f c then c :: takeWhile f s' else []
  end.

(** [unescapeString] read from left to right over the text itself: [None]
    where the text ends in the backslash that opens an escape. *)
Fixpoint unescaped (s : bytes) : option bytes :=
  match s with
  | [] => Some []
  | c :: s' =>
      if Ascii.eqb c backslash then
        match s' with
        | [] => None
        | ch :: s'' => option_map (app (unescapeByte ch)) (unescaped s'')
        end
      else option_map (cons c) (unescaped s')
  end.

(** The number of backslashes at the end of [s]. *)
Definition trailing_backslashes (s : bytes) : nat :=
  length (takeWhile (fun c => Ascii.eqb c backslash) (rev s)).

(** What holds of a call that is not bounded by fuel: it returns a value
    of which [P] holds, or it panics. *)
Definition finishes {A} (P : A -> Prop) (o : outcome A) : Prop :=
  match o with
  | Ret a => P a
  | Panic _ => True
  | OutOfFuel => False
  end.

(** [s'] is [s] with [out] written behind its text, at the indentation
    level of [s]. *)
Definition wrote (s s' : serializer) (out : bytes) : Prop :=
  sjson s' = sjson s ++ out /\ indentLevel s' = indentLevel s.

(** The text of a record or of a sequence that is not nil: the opening
    byte, a line feed, the indentation of the members, what is written for
    them, a line feed, the indentation of the value and the closing
    byte. *)
Definition framed (opening closing : byte) (indent : Z) (body : bytes) : bytes :=
  [opening; LF] ++ repeat TAB (Z.to_nat (indent + 1)) ++ body
                ++ [LF] ++ repeat TAB (Z.to_nat indent) ++ [closing].

(** Something has been written behind the text of [s], at its
    indentation level. *)
Definition writes_some (s s' : serializer) : Prop := exists out, wrote s s' out.

(** A field of one of the integer or floating-point kinds. *)
Definition is_number (x : value) : bool :=
  match x with
  | VInt k _ => isIntKind k
  | VUint k _ => isUintKind k
  | VFloat k _ => isFloatKind k
  | _ => false
  end.

(** [v'] is a record of the type [name] in which every number field of
    [fields] still has the value it has in [fields]. *)
Definition keeps_numbers (name : bytes) (fields : list (bytes * value)) (v' : value) : Prop :=
  exists fields',
    v' = VStruct name fields' /\
    forall k x, lookup_field fields k = Some x -> is_number x = true ->
                lookup_field fields' k = Some x.

(** [v'] is a slice of [elem] of length [len] or more. *)
Definition at_least (elem : type) (len : nat) (v' : value) : Prop :=
  match v' with
  | VSlice e _ _ len' => e = elem /\ (len <= len')%nat
  | _ => False
  end.

(** * Properties *)

(** ** Running with fuel *)

Lemma below_refl {A} (a : outcome A) : below a a.
Proof. now right. Qed.

Lemma below_bottom {A} (b : outcome A) : below OutOfFuel b.
Proof. now left. Qed.

Lemma below_bind {A B} (a a' : outcome A) (k k' : A -> outcome B) :
  below a a' -> (forall x, below (k x) (k' x)) -> below (bind a k) (bind a' k').
Proof.
  intros [-> | ->] Hk.
  - now left.
  - destruct a'; simpl; auto using below_refl.
Qed.

Lemma ends_with_unique {A} (run : nat -> outcome A) (r r' : outcome A) :
  ends_with run r -> ends_with run r' -> r = r'.
Proof.
  intros [_ [n Hn]] [_ [m Hm]].
  rewrite <- (Hn (Nat.max n m)), <- (Hm (Nat.max n m)); auto; lia.
Qed.

Lemma ends_with_not_diverges {A} (run : nat -> outcome A) (r : outcome A) :
  ends_with run r -> ~ diverges run.
Proof.
  intros [Hr [n Hn]] Hd. apply Hr. now rewrite <- (Hn n), Hd.
Qed.

(** ** The cursor *)

Section Cursor.

Implicit Types (d : deserializer) (b : byte).

Lemma atEof_cases d offset :
  (pos d + offset > eof d /\ atEof d offset = (true, set_err d ErrEof)) \/
  (pos d + offset <= eof d /\ atEof d offset = (false, d)).
Proof.
  unfold atEof. destruct (pos d + offset >? eof d) eqn:E.
  - left. split; [lia | reflexivity].
  - right. split; [lia | reflexivity].
Qed.

Lemma set_err_at_end d :
  err d = Some ErrEof -> set_err d ErrEof = d.
Proof. destruct d; simpl; intros ->; reflexivity. Qed.

Lemma advances_refl d : advances d d.
Proof. unfold advances; repeat split; lia. Qed.

Lemma advances_trans d1 d2 d3 : advances d1 d2 -> advances d2 d3 -> advances d1 d3.
Proof. unfold advances; intros (-> & -> & ?) (-> & -> & ?); repeat split; lia. Qed.

Lemma atEof_advances d o : advances d (snd (atEof d o)).
Proof. destruct (atEof_cases d o) as [[_ ->] | [_ ->]]; unfold advances; simpl; repeat split; lia. Qed.

Lemma consume_advances d : advances d (snd (consume d)).
Proof.
  unfold consume.
  destruct (atEof_cases d 0) as [[_ ->] | [_ ->]]; unfold advances; simpl; repeat split; lia.
Qed.

Lemma peekCurrent_advances d : advances d (snd (peekCurrent d)).
Proof.
  unfold peekCurrent.
  destruct (atEof_cases d 0) as [[_ ->] | [_ ->]]; unfold advances; simpl; repeat split; lia.
Qed.

Lemma consumeByte_advances d b : advances d (consumeByte d b).
Proof.
  unfold consumeByte, consume.
  destruct (atEof_cases d 0) as [[_ ->] | [_ ->]].
  - unfold advances; simpl; repeat split; lia.
  - destruct (negb _).
    + unfold advances; simpl; repeat split; lia.
    + destruct (atEof_cases d 0) as [[_ ->] | [_ ->]]; unfold advances; simpl; repeat split; lia.
Qed.

Lemma consumeWhitespace_loop_advances n : forall d, advances d (consumeWhitespace_loop n d).
Proof.
  induction n as [| n IH]; intros d; simpl;
    destruct (atEof_cases d 0) as [[_ ->] | [_ ->]]; simpl;
    try (unfold advances; simpl; repeat split; lia);
    destruct (isWhitespace _); try apply advances_refl.
  eapply advances_trans; [apply consume_advances | apply IH].
Qed.

Lemma consumeWhitespace_advances d : advances d (consumeWhitespace d).
Proof. apply consumeWhitespace_loop_advances. Qed.

Lemma consumeUntil_loop_advances n b :
  forall d sb, advances d (snd (consumeUntil_loop n d b sb)).
Proof.
  induction n as [| n IH]; intros d sb; simpl; destruct (negb _); try apply advances_refl;
    match goal with |- context [atEof ?x 0] =>
      pose proof (atEof_advances x 0) as Ha;
      destruct (atEof_cases x 0) as [[_ E] | [_ E]]; rewrite E in *; simpl in * end;
    try (eapply advances_trans; [| first [apply IH | apply Ha]]);
    unfold advances; simpl; repeat split; lia.
Qed.

Lemma consumeUntil_advances d b : advances d (snd (consumeUntil d b)).
Proof.
  unfold consumeUntil.
  destruct (atEof_cases d 0) as [[_ ->] | [_ ->]]; [unfold advances; simpl; repeat split; lia |].
  apply consumeUntil_loop_advances.
Qed.

Lemma makeDeserializer_ok j : cursor_ok (makeDeserializer j).
Proof. unfold cursor_ok; simpl; lia. Qed.

Lemma advances_ok d d' : cursor_ok d -> advances d d' -> cursor_ok d'.
Proof. unfold cursor_ok, advances. intros [? ?] (-> & -> & ?). split; [lia | assumption]. Qed.

Lemma guarded_index_in_range d :
  cursor_ok d -> fst (atEof d 0) = false ->
  nth_error (json d) (Z.to_nat (pos d)) = Some (at_pos d).
Proof.
  intros [Hp He] Hg.
  destruct (atEof_cases d 0) as [[_ E] | [Hle _]]; [rewrite E in Hg; discriminate |].
  unfold at_pos. apply nth_error_nth'. lia.
Qed.

(** *** The error field is never cleared *)

Lemma atEof_keeps_error d o : hasError d = true -> hasError (snd (atEof d o)) = true.
Proof. intros H. destruct (atEof_cases d o) as [[_ ->] | [_ ->]]; auto. Qed.

Lemma consume_keeps_error d : hasError d = true -> hasError (snd (consume d)) = true.
Proof.
  intros H. unfold consume. destruct (atEof_cases d 0) as [[_ ->] | [_ ->]]; auto.
Qed.

Lemma peekCurrent_keeps_error d : hasError d = true -> hasError (snd (peekCurrent d)) = true.
Proof.
  intros H. unfold peekCurrent. destruct (atEof_cases d 0) as [[_ ->] | [_ ->]]; auto.
Qed.

Lemma consumeByte_keeps_error d b : hasError d = true -> hasError (consumeByte d b) = true.
Proof.
  intros H. unfold consumeByte. destruct (atEof_cases d 0) as [[_ ->] | [_ ->]]; auto.
  destruct (negb _); auto using consume_keeps_error.
Qed.

Lemma consumeWhitespace_loop_keeps_error n :
  forall d, hasError d = true -> hasError (consumeWhitespace_loop n d) = true.
Proof.
  induction n as [| n IH]; intros d H; simpl;
    destruct (atEof_cases d 0) as [[_ ->] | [_ ->]]; simpl; auto;
    destruct (isWhitespace _); auto using consume_keeps_error.
Qed.

Lemma consumeUntil_loop_keeps_error n b :
  forall d sb, hasError d = true -> hasError (snd (consumeUntil_loop n d b sb)) = true.
Proof.
  induction n as [| n IH]; intros d sb H; simpl; destruct (negb _); auto;
    match goal with |- context [atEof ?x 0] =>
      destruct (atEof_cases x 0) as [[_ ->] | [_ ->]] end; simpl; auto.
Qed.

Lemma consumeUntil_keeps_error d b :
  hasError d = true -> hasError (snd (consumeUntil d b)) = true.
Proof.
  intros H. unfold consumeUntil. destruct (atEof_cases d 0) as [[_ ->] | [_ ->]]; auto.
  now apply consumeUntil_loop_keeps_error.
Qed.

Lemma consumeUntilTerminator_loop_keeps_error fuel :
  forall d sb b data t d',
    hasError d = true ->
    consumeUntilTerminator_loop fuel d sb b = Ret (data, t, d') -> hasError d' = true.
Proof.
  induction fuel as [| fuel IH]; intros d sb b data t d' H; simpl;
    destruct (_ && _); try discriminate; try (intros [= _ _ <-]; assumption).
  destruct (peekCurrent (snd (consume d))) as [b' d1] eqn:E.
  apply IH.
  change d1 with (snd (b', d1)). rewrite <- E.
  auto using peekCurrent_keeps_error, consume_keeps_error.
Qed.

Lemma consumeUntilTerminator_keeps_error fuel d data t d' :
  hasError d = true ->
  consumeUntilTerminator fuel d = Ret (data, t, d') -> hasError d' = true.
Proof.
  intros H. unfold consumeUntilTerminator.
  destruct (peekCurrent d) as [b d1] eqn:E.
  assert (H1 : hasError d1 = true).
  { change d1 with (snd (b, d1)). rewrite <- E. now apply peekCurrent_keeps_error. }
  destruct (consumeUntilTerminator_loop fuel d1 [] b) as [[[sb t'] d2] | |] eqn:E2;
    simpl; try discriminate.
  intros [= _ _ <-]. eapply consumeUntilTerminator_loop_keeps_error; eauto.
Qed.

(** *** Past the end, with the end-of-input error, nothing changes *)

Lemma atEof_at_end d :
  eof d < pos d -> err d = Some ErrEof -> atEof d 0 = (true, d).
Proof.
  intros Hp He. destruct (atEof_cases d 0) as [[_ ->] | [? _]]; [| lia].
  now rewrite set_err_at_end.
Qed.

Lemma consumeWhitespace_at_end d :
  eof d < pos d -> err d = Some ErrEof -> consumeWhitespace d = d.
Proof.
  intros Hp He. unfold consumeWhitespace.
  destruct (remaining d); simpl; now rewrite atEof_at_end.
Qed.

End Cursor.

(** C9, as stated, fails: with the error field set, [consume] still
    advances, [consumeByte] replaces the error by its own, and
    [consumeUntil] runs to the end of the buffer and replaces it by the
    end-of-input error. *)
Lemma latch_counterexample :
  err missed_quote = Some (ErrExpectedByte dquote "x") /\
  pos missed_quote = 1 /\
  pos (snd (consume missed_quote)) = 2 /\
  err (consumeByte missed_quote ":") = Some (ErrExpectedByte ":" "x") /\
  pos (snd (consumeUntil missed_quote dquote)) = 3 /\
  err (snd (consumeUntil missed_quote dquote)) = Some ErrEof.
Proof. vm_compute. repeat split. Qed.

(** C9, amended: once the error field is set no scanning operation clears
    it (the operations do not test it: they may still advance and replace
    the error); and past the end of the buffer, with the end-of-input
    error set, peek, consume, consumeByte, consumeWhitespace and
    consumeUntil leave the cursor as it is. *)
Theorem error_never_cleared (d : deserializer) (b : byte) :
  hasError d = true ->
  (hasError (snd (peekCurrent d)) = true /\
   hasError (snd (consume d)) = true /\
   hasError (consumeByte d b) = true /\
   hasError (consumeWhitespace d) = true /\
   hasError (snd (consumeUntil d b)) = true /\
   (forall fuel data t d',
       consumeUntilTerminator fuel d = Ret (data, t, d') -> hasError d' = true)) /\
  (eof d < pos d -> err d = Some ErrEof ->
   peekCurrent d = (NUL, d) /\
   consume d = (NUL, d) /\
   consumeByte d b = d /\
   consumeWhitespace d = d /\
   consumeUntil d b = ([], d)).
Proof.
  intros H. split.
  - repeat split.
    + now apply peekCurrent_keeps_error.
    + now apply consume_keeps_error.
    + now apply consumeByte_keeps_error.
    + now apply consumeWhitespace_loop_keeps_error.
    + now apply consumeUntil_keeps_error.
    + intros fuel data t d'. now apply consumeUntilTerminator_keeps_error.
  - intros Hp He.
    unfold peekCurrent, consume, consumeByte, consumeUntil.
    rewrite (atEof_at_end d Hp He), (consumeWhitespace_at_end d Hp He).
    repeat split.
Qed.

(** C9, amended, on the cursor that has run past the end of [{x}]. *)
Lemma error_never_cleared_witness :
  hasError past_end = true /\ eof past_end < pos past_end /\ err past_end = Some ErrEof /\
  consumeByte past_end "}" = past_end /\ consumeWhitespace past_end = past_end.
Proof.
  assert (H : hasError past_end = true) by reflexivity.
  assert (Hp : eof past_end < pos past_end) by (vm_compute; reflexivity).
  assert (He : err past_end = Some ErrEof) by reflexivity.
  destruct (error_never_cleared past_end "}" H) as [_ Hend].
  destruct (Hend Hp He) as (_ & _ & Hb & Hw & _).
  repeat split; assumption.
Defined.

(** ** More fuel never changes an outcome *)

Section Fuel.

Variable rt : runtime.

Lemma consumeUntilTerminator_loop_mono fuel :
  forall fuel' d sb b, (fuel <= fuel')%nat ->
    below (consumeUntilTerminator_loop fuel d sb b) (consumeUntilTerminator_loop fuel' d sb b).
Proof.
  induction fuel as [| fuel IH]; intros [| fuel'] d sb b H; simpl;
    destruct (_ && _); try apply below_refl; try apply below_bottom; try lia.
  destruct (peekCurrent _). apply IH. lia.
Qed.

Lemma consumeUntilTerminator_mono fuel fuel' d :
  (fuel <= fuel')%nat ->
  below (consumeUntilTerminator fuel d) (consumeUntilTerminator fuel' d).
Proof.
  intros H. unfold consumeUntilTerminator. destruct (peekCurrent d).
  apply below_bind; [now apply consumeUntilTerminator_loop_mono | intros; apply below_refl].
Qed.

Lemma arrayPrimitive_mono fuel fuel' d v arrayIndex :
  (fuel <= fuel')%nat ->
  below (arrayPrimitive rt fuel d v arrayIndex) (arrayPrimitive rt fuel' d v arrayIndex).
Proof.
  intros H. unfold arrayPrimitive. destruct (parsePrimitiveType d) as [[p [e |]] d'].
  - apply below_refl.
  - apply below_bind; [now apply consumeUntilTerminator_mono | intros; apply below_refl].
Qed.

Lemma objectPrimitive_mono fuel fuel' d v key x :
  (fuel <= fuel')%nat ->
  below (objectPrimitive rt fuel d v key x) (objectPrimitive rt fuel' d v key x).
Proof.
  intros H. unfold objectPrimitive. destruct (parsePrimitiveType d) as [[p [e |]] d'].
  - apply below_refl.
  - apply below_bind; [now apply consumeUntilTerminator_mono | intros; apply below_refl].
Qed.

Ltac mono H :=
  repeat first
    [ apply below_refl
    | apply below_bottom
    | apply H
    | apply arrayPrimitive_mono; assumption
    | apply objectPrimitive_mono; assumption
    | apply below_bind; [ | intros ? ]
    | match goal with
      | |- below (match ?x with _ => _ end) _ => destruct x
      end ].

Lemma walkers_mono fuel :
  forall fuel', (fuel <= fuel')%nat ->
    (forall d v, below (deserializeArray rt fuel d v) (deserializeArray rt fuel' d v)) /\
    (forall d v i, below (arrayLoop rt fuel d v i) (arrayLoop rt fuel' d v i)) /\
    (forall d v, below (deserializeObject rt fuel d v) (deserializeObject rt fuel' d v)) /\
    (forall d v, below (objectLoop rt fuel d v) (objectLoop rt fuel' d v)).
Proof.
  induction fuel as [| fuel IH]; intros [| fuel'] H; try lia;
    try (repeat split; intros; apply below_bottom).
  assert (H' : (fuel <= fuel')%nat) by lia.
  destruct (IH fuel' H') as (IHa & IHl & IHo & IHol).
  repeat split; intros;
    cbn [deserializeArray arrayLoop deserializeObject objectLoop].
  - mono IHl.
  - mono IHa; try (apply IHo); mono IHl.
  - mono IHol.
  - mono IHa; try (apply IHo); mono IHol.
Qed.

Lemma Deserialize_mono fuel fuel' j i :
  (fuel <= fuel')%nat -> below (Deserialize rt fuel j i) (Deserialize rt fuel' j i).
Proof.
  intros H. destruct (walkers_mono fuel fuel' H) as (Ha & _ & Ho & _).
  unfold Deserialize, deserialize.
  destruct (isJsonArray _); [| destruct (reflect.eqb _ _)];
    try apply below_refl; (apply below_bind; [auto | intros; apply below_refl]).
Qed.

(** One run that does not run out of fuel settles the outcome. *)
Lemma Deserialize_ends n j i r :
  Deserialize rt n j i = r -> r <> OutOfFuel ->
  ends_with (fun fuel => Deserialize rt fuel j i) r.
Proof.
  intros <- Hr. split; [assumption |]. exists n. intros fuel H.
  destruct (Deserialize_mono n fuel j i H) as [E | E]; [contradiction | now symmetry].
Qed.

End Fuel.

(** ** The walkers on concrete documents *)

Section Walkers.

Variable rt : runtime.

(** *** Numbers in objects *)

(** In [deserializeObject] the switch that chooses the numeric parser
    looks at the kind of the struct, which is none of the numeric kinds: a
    number literal leaves the struct as it was. *)
Lemma objectPrimitive_number fuel d d1 name fields key x d' v' ret :
  parsePrimitiveType d = (PrimitiveType.Number, None, d1) ->
  objectPrimitive rt fuel d (VStruct name fields) key x = Ret (d', v', ret) ->
  v' = VStruct name fields.
Proof.
  intros Hp. unfold objectPrimitive. rewrite Hp.
  destruct (consumeUntilTerminator fuel d1) as [[[data t] d2] | |]; simpl; try discriminate.
  now intros [= _ <- _].
Qed.

(** C1, on the document of the claim: the call succeeds, [Name] is
    written and [Age] keeps the value it had. *)
Theorem object_number_not_written :
  ends_with (fun fuel => Deserialize rt fuel (js "{'Name': 'Alice', 'Age': 30}")
                           (Zero person_type))
            (Ret (None, person (B "Alice") 0)).
Proof.
  apply (Deserialize_ends rt 20); [vm_compute; reflexivity | discriminate].
Qed.

(** *** End of input inside a literal *)

Lemma forallb_skipn_S {A} (f : A -> bool) n : forall l,
  forallb f (skipn n l) = true -> forallb f (skipn (S n) l) = true.
Proof.
  induction n as [| n IH]; intros [| a l]; simpl; auto.
  - intros H. apply andb_true_iff in H. tauto.
  - intros H. apply (IH l H).
Qed.

Lemma forallb_skipn_nth {A} (f : A -> bool) (x : A) n : forall l,
  f x = true -> forallb f (skipn n l) = true -> f (nth n l x) = true.
Proof.
  induction n as [| n IH]; intros [| a l] Hx; simpl; auto.
  intros H. apply andb_true_iff in H. tauto.
Qed.

Lemma ahead_at_pos d : no_terminator_ahead d -> isTerminator (at_pos d) = false.
Proof.
  intros H. apply negb_true_iff.
  exact (forallb_skipn_nth (fun c => negb (isTerminator c)) NUL _ _ eq_refl H).
Qed.

Lemma not_terminator_continues b :
  isTerminator b = false ->
  negb (Ascii.eqb b "}") && negb (Ascii.eqb b ",") && negb (Ascii.eqb b "]") = true.
Proof.
  unfold isTerminator.
  destruct (Ascii.eqb b "}"), (Ascii.eqb b ","), (Ascii.eqb b "]"); simpl; congruence.
Qed.

(** With no terminator between the position and the end of the buffer
    the loop of [consumeUntilTerminator] never ends: at the end of input
    [peekCurrent] keeps returning 0, which is not a terminator. *)
Lemma consumeUntilTerminator_loop_diverges fuel :
  forall d sb b,
    0 <= pos d -> no_terminator_ahead d -> isTerminator b = false ->
    consumeUntilTerminator_loop fuel d sb b = OutOfFuel.
Proof.
  induction fuel as [| fuel IH]; intros d sb b Hp Ha Hb; simpl;
    rewrite (not_terminator_continues b Hb); [reflexivity |].
  unfold consume, peekCurrent.
  destruct (atEof_cases d 0) as [[_ ->] | [_ ->]]; simpl.
  - destruct (atEof_cases (set_err d ErrEof) 0) as [[_ ->] | [_ ->]]; apply IH; auto.
    now apply ahead_at_pos.
  - assert (Ha' : no_terminator_ahead (set_pos d (pos d + 1))).
    { unfold no_terminator_ahead; simpl.
      replace (Z.to_nat (pos d + 1)) with (S (Z.to_nat (pos d))) by lia.
      now apply forallb_skipn_S. }
    destruct (atEof_cases (set_pos d (pos d + 1)) 0) as [[_ ->] | [_ ->]];
      apply IH; simpl; auto; try lia.
    now apply ahead_at_pos.
Qed.

Lemma consumeUntilTerminator_diverges fuel d :
  0 <= pos d -> no_terminator_ahead d -> consumeUntilTerminator fuel d = OutOfFuel.
Proof.
  intros Hp Ha. unfold consumeUntilTerminator, peekCurrent.
  destruct (atEof_cases d 0) as [[_ ->] | [_ ->]];
    rewrite consumeUntilTerminator_loop_diverges; auto.
  now apply ahead_at_pos.
Qed.

Lemma objectLoop_diverges d v :
  literal_unterminated d v = true -> forall fuel, objectLoop rt fuel d v = OutOfFuel.
Proof.
  intros H [| fuel]; [reflexivity |].
  unfold literal_unterminated in H. cbn [objectLoop].
  destruct (peekCurrent d) as [b d1].
  apply andb_true_iff in H as [Hb H]. apply negb_true_iff in Hb. rewrite Hb.
  destruct (consumeKey d1) as [key d2].
  apply andb_true_iff in H as [He H]. apply negb_true_iff in He. rewrite He.
  destruct v as [| | | | | name fields | | |]; try discriminate. cbn [FieldByName bind].
  destruct (lookup_field fields key) as [x |]; [| discriminate].
  destruct (peekCurrent d2) as [b3 d3].
  apply andb_true_iff in H as [Hb3 H]. apply negb_true_iff in Hb3. rewrite Hb3.
  destruct (peekCurrent d3) as [b4 d4].
  apply andb_true_iff in H as [Hb4 H]. apply negb_true_iff in Hb4. rewrite Hb4.
  destruct (d_isPrimitive d4) as [p d5].
  apply andb_true_iff in H as [-> H].
  unfold objectPrimitive.
  destruct (parsePrimitiveType d5) as [[pt [e |]] d6]; [discriminate |].
  apply andb_true_iff in H as [Hp Ha].
  rewrite consumeUntilTerminator_diverges; [reflexivity | lia | exact Ha].
Qed.

Lemma deserializeObject_diverges d v :
  hasError (consumeWhitespace (consumeByte d "{")) = false ->
  literal_unterminated (consumeWhitespace (consumeByte d "{")) v = true ->
  forall fuel, deserializeObject rt fuel d v = OutOfFuel.
Proof.
  intros He H [| fuel]; [reflexivity |].
  cbn [deserializeObject]. rewrite He, objectLoop_diverges; auto.
Qed.

(** C3, on the document of the claim: the call never returns. *)
Theorem unterminated_object_diverges :
  diverges (fun fuel => Deserialize rt fuel (js "{'Name': 'Alice'") (Zero person_type)).
Proof.
  intros fuel. unfold Deserialize, deserialize.
  change (isJsonArray (Kind (Zero person_type))) with false.
  change (reflect.eqb (Kind (Zero person_type)) reflect.Struct) with true.
  cbv iota.
  rewrite deserializeObject_diverges; [reflexivity | reflexivity |].
  vm_compute. reflexivity.
Qed.

(** *** Fixed-length arrays *)

(** C4: with two or more elements in the document the zero fill runs
    after the first one, moves [arrayIndex] to the length of the array, and
    the next pass calls [SetLen] on the array, which panics; with one
    element the loop is left before the zero fill, and the other slots keep
    what they held. *)
Theorem fixed_array_zero_fill_misplaced :
  ends_with (fun fuel => Deserialize rt fuel (js "[1, 2, 3]") (int_array [0; 0; 0; 0; 0]))
            (Panic (ReflectKind "SetLen" reflect.Array)) /\
  ends_with (fun fuel => Deserialize rt fuel (js "[1]") (int_array [7; 7; 7; 7; 7]))
            (Ret (None, int_array [1; 7; 7; 7; 7])).
Proof.
  split; apply (Deserialize_ends rt 20); try discriminate; vm_compute; reflexivity.
Qed.

(** *** Slices *)

(** C5: a boolean or string element is appended after the length has been
    extended for it, so the slot made for it keeps the zero value and the
    result is one longer than the document; and a slice that was longer
    than the document keeps its length. *)
Theorem slice_length_not_element_count :
  ends_with (fun fuel => Deserialize rt fuel (js "[true]") (Zero (TSlice (TBasic reflect.Bool))))
            (Ret (None, VSlice (TBasic reflect.Bool) false
                          [VBool false; VBool true; VBool false; VBool false] 2)) /\
  ends_with (fun fuel => Deserialize rt fuel (js "['a', 'b']")
                           (Zero (TSlice (TBasic reflect.String))))
            (Ret (None, VSlice (TBasic reflect.String) false
                          [VString []; VString (B "a"); VString (B "b"); VString []] 3)) /\
  ends_with (fun fuel => Deserialize rt fuel (js "[1]")
                           (VSlice (TBasic reflect.Int) false
                              [VInt reflect.Int 7; VInt reflect.Int 8; VInt reflect.Int 9] 3))
            (Ret (None, VSlice (TBasic reflect.Int) false
                          [VInt reflect.Int 1; VInt reflect.Int 8; VInt reflect.Int 9] 3)).
Proof.
  split; [| split]; apply (Deserialize_ends rt 20); try discriminate; vm_compute; reflexivity.
Qed.

(** *** Whitespace *)

(** C6: after a nested object the comma is looked for without skipping
    whitespace first (after a primitive the trailing whitespace is
    trimmed), so a space between the closing brace and the comma turns a
    document that is read in full into an error. *)
Theorem whitespace_before_comma_rejected :
  ends_with (fun fuel => Deserialize rt fuel (js "{'A': {'B': 'x'}, 'C': 'y'}")
                           (Zero nested_type))
            (Ret (None, nested (B "x") (B "y"))) /\
  ends_with (fun fuel => Deserialize rt fuel (js "{'A': {'B': 'x'} , 'C': 'y'}")
                           (Zero nested_type))
            (Ret (Some (ErrExpectedByte ":" "C"), nested (B "x") [])).
Proof.
  split; apply (Deserialize_ends rt 20); try discriminate; vm_compute; reflexivity.
Qed.

(** *** Text *)

(** C10: for the literal "a\" the content handed to [unescapeString] is
    the two bytes a and backslash; the byte after the backslash is read at
    index 2 of a string of length 2, and the panic leaves [Deserialize]. *)
Theorem unescape_reads_past_the_end :
  parseString (js "'a\'") = Panic (IndexOutOfRange 2 2) /\
  unescapeString ["a"; backslash] = Panic (IndexOutOfRange 2 2) /\
  ends_with (fun fuel => Deserialize rt fuel (js "{'S': 'a\'}") (Zero holder_type))
            (Panic (IndexOutOfRange 2 2)).
Proof.
  split; [reflexivity | split; [reflexivity |]].
  apply (Deserialize_ends rt 20); [vm_compute; reflexivity | discriminate].
Qed.

(** *** Round trip *)

(** C2: the text of a record with a number is read back without the
    number. *)
Theorem round_trip_loses_number :
  Serialize rt (person (B "Alice") 30) = Ret person_text /\
  ends_with (fun fuel => Deserialize rt fuel person_text (Zero person_type))
            (Ret (None, person (B "Alice") 0)) /\
  person (B "Alice") 0 <> person (B "Alice") 30.
Proof.
  split; [reflexivity | split; [| discriminate]].
  apply (Deserialize_ends rt 20); [vm_compute; reflexivity | discriminate].
Qed.

(** *** Further runs *)

(** A truncated document whose last value is not a primitive does return,
    here with another error than the end-of-input one. *)
Example unterminated_array_other_error :
  exists v,
    ends_with (fun fuel => Deserialize rt fuel (js "[[1]")
                             (Zero (TSlice (TSlice (TBasic reflect.Int)))))
              (Ret (Some (ErrExpectedValueInLoop NUL 1), v)).
Proof.
  eexists. apply (Deserialize_ends rt 20); [vm_compute; reflexivity | discriminate].
Qed.

(** Numbers into an empty slice: as many elements as the document has. *)
Example number_slice_length :
  ends_with (fun fuel => Deserialize rt fuel (js "[1, 2, 3]") (Zero (TSlice (TBasic reflect.Int))))
            (Ret (None, VSlice (TBasic reflect.Int) false
                          [VInt reflect.Int 1; VInt reflect.Int 2; VInt reflect.Int 3;
                           VInt reflect.Int 0] 3)).
Proof.
  apply (Deserialize_ends rt 20); [vm_compute; reflexivity | discriminate].
Qed.

(** Whitespace before the colon of a member, or before the first token. *)
Example whitespace_before_colon_rejected :
  ends_with (fun fuel => Deserialize rt fuel (js "{'S' : 'x'}") (Zero holder_type))
            (Ret (Some (ErrExpectedByte ":" " "), holder [])) /\
  ends_with (fun fuel => Deserialize rt fuel (js " {'S': 'x'}") (Zero holder_type))
            (Ret (Some (ErrExpectedByte "{" " "), holder [])).
Proof.
  split; apply (Deserialize_ends rt 20); try discriminate; vm_compute; reflexivity.
Qed.

(** [serializeArray] asks a fixed-length array whether it is nil. *)
Example serialize_array_panics :
  Serialize rt (int_array [1; 2]) = Panic (ReflectKind "IsNil" reflect.Array).
Proof. reflexivity. Qed.

(** *** Nil and empty sequences *)

(** C8, amended: a nil sequence is written as [null]; a sequence that is
    not nil and has no element is written as an opening bracket, a
    newline, the indentation of its elements, a newline, its own
    indentation and a closing bracket (five bytes at the top level, with
    one tab between the newlines), never as [null]. *)
Theorem nil_and_empty_sequences (elem : type) (store : list value) (len : nat) (s : serializer) :
  Serialize rt (VSlice elem true store len) = Ret (B "null") /\
  Serialize rt (VSlice elem false store 0) = Ret ["["; LF; TAB; LF; "]"] /\
  serializeArray rt s (VSlice elem true store len) = Ret (WriteString s (B "null")) /\
  serializeArray rt s (VSlice elem false store 0) =
    Ret (WriteString s (empty_array_text (indentLevel s))).
Proof.
  repeat split.
  - destruct store; reflexivity.
  - unfold serializeArray. destruct store; cbn [negb bind Nat.ltb Nat.leb].
    all: unfold endArray, startArray, appendTabs, WriteString, set_indent, empty_array_text;
      cbn [sjson indentLevel]; rewrite <- !app_assoc;
      replace (indentLevel s + 1 - 1) with (indentLevel s) by lia; reflexivity.
Qed.

End Walkers.

(** ** Escaping and unescaping *)

Section Escapes.

Lemma runeWidth_ascii c s : is_ascii c = true -> runeWidth (c :: s) = 1%nat.
Proof.
  unfold is_ascii, runeWidth, inRange. intros H.
  apply N.ltb_lt in H.
  replace (N_of_ascii c <=? 127)%N with true by (symmetry; apply N.leb_le; lia).
  replace (0 <=? N_of_ascii c)%N with true by (symmetry; apply N.leb_le; lia).
  reflexivity.
Qed.

(** On ASCII text the loop of [escapeString] visits every byte. *)
Lemma escapeString_loop_ascii s :
  forall n, (length s <= n)%nat -> forallb is_ascii s = true ->
    escapeString_loop n s = flat_map escapeByte s.
Proof.
  induction s as [| c s IH]; intros [| n] Hn Ha; simpl in *; try reflexivity; try lia.
  apply andb_true_iff in Ha as [Hc Ha].
  pose proof (runeWidth_ascii c s Hc) as Hw. simpl in Hw. rewrite Hw.
  simpl. rewrite IH; auto; lia.
Qed.

Lemma escapeString_ascii s :
  forallb is_ascii s = true -> escapeString s = flat_map escapeByte s.
Proof. intros H. now apply escapeString_loop_ascii. Qed.

Lemma escapeByte_cases c :
  (escapeByte c = [c] /\ Ascii.eqb c backslash = false) \/
  (exists x, escapeByte c = [backslash; x] /\ unescapeByte x = [c]).
Proof.
  unfold escapeByte.
  destruct (Ascii.eqb c backslash) eqn:E1;
    [apply Ascii.eqb_eq in E1; subst; right; eexists; split; reflexivity |].
  destruct (Ascii.eqb c dquote) eqn:E2;
    [apply Ascii.eqb_eq in E2; subst; right; eexists; split; reflexivity |].
  destruct (Ascii.eqb c "/") eqn:E3;
    [apply Ascii.eqb_eq in E3; subst; right; eexists; split; reflexivity |].
  destruct (Ascii.eqb c BS) eqn:E4;
    [apply Ascii.eqb_eq in E4; subst; right; eexists; split; reflexivity |].
  destruct (Ascii.eqb c TAB) eqn:E5;
    [apply Ascii.eqb_eq in E5; subst; right; eexists; split; reflexivity |].
  destruct (Ascii.eqb c LF) eqn:E6;
    [apply Ascii.eqb_eq in E6; subst; right; eexists; split; reflexivity |].
  destruct (Ascii.eqb c FF) eqn:E7;
    [apply Ascii.eqb_eq in E7; subst; right; eexists; split; reflexivity |].
  destruct (Ascii.eqb c CR) eqn:E8;
    [apply Ascii.eqb_eq in E8; subst; right; eexists; split; reflexivity |].
  left. split; reflexivity.
Qed.

Lemma index_middle pre x post :
  index (pre ++ x :: post) (Z.of_nat (length pre)) = Ret x.
Proof.
  unfold index.
  replace (Z.of_nat (length pre) <? 0) with false by (symmetry; apply Z.ltb_ge; lia).
  replace (Z.of_nat (length (pre ++ x :: post)) <=? Z.of_nat (length pre)) with false
    by (symmetry; apply Z.leb_gt; rewrite length_app; simpl; lia).
  simpl. rewrite Nat2Z.id, nth_error_app2, Nat.sub_diag; [reflexivity | lia].
Qed.

Lemma unescape_step c pre post sb n :
  unescapeString_loop (S n) (pre ++ escapeByte c ++ post) (Z.of_nat (length pre)) sb =
  unescapeString_loop n (pre ++ escapeByte c ++ post)
    (Z.of_nat (length (pre ++ escapeByte c))) (sb ++ [c]).
Proof.
  cbn [unescapeString_loop].
  replace (Z.of_nat (length pre) <? Z.of_nat (length (pre ++ escapeByte c ++ post))) with true.
  2:{ symmetry. apply Z.ltb_lt. rewrite !length_app.
      destruct (escapeByte_cases c) as [[-> _] | (x & -> & _)]; simpl; lia. }
  destruct (escapeByte_cases c) as [[E Hb] | (x & E & Hx)]; rewrite E.
  - cbn [app]. rewrite index_middle. cbn [bind]. rewrite Hb.
    rewrite length_app. simpl. f_equal. lia.
  - cbn [app]. rewrite index_middle. cbn [bind]. rewrite Ascii.eqb_refl.
    replace (Z.of_nat (length pre) + 1) with (Z.of_nat (length (pre ++ [backslash])))
      by (rewrite length_app; simpl; lia).
    change (pre ++ backslash :: x :: post) with (pre ++ [backslash] ++ x :: post).
    rewrite (app_assoc pre [backslash] (x :: post)).
    rewrite index_middle. cbn [bind]. rewrite Hx.
    f_equal. rewrite !length_app. simpl. lia.
Qed.

Lemma unescape_flat_map s :
  forall pre sb n, (length s <= n)%nat ->
    unescapeString_loop n (pre ++ flat_map escapeByte s) (Z.of_nat (length pre)) sb
    = Ret (sb ++ s).
Proof.
  induction s as [| c s IH]; intros pre sb n Hn.
  - simpl. rewrite !app_nil_r.
    destruct n; simpl; rewrite Z.ltb_irrefl; reflexivity.
  - destruct n as [| n]; [simpl in Hn; lia |].
    cbn [flat_map]. rewrite unescape_step.
    rewrite app_assoc, IH by (simpl in Hn; lia).
    now rewrite <- app_assoc.
Qed.

Lemma length_flat_map_escape s : (length s <= length (flat_map escapeByte s))%nat.
Proof.
  induction s as [| c s IH]; simpl; [lia |].
  rewrite length_app.
  destruct (escapeByte_cases c) as [[-> _] | (x & -> & _)]; simpl; lia.
Qed.

(** [unescapeString] undoes [escapeString] on ASCII text. *)
Lemma unescape_escape s :
  forallb is_ascii s = true -> unescapeString (escapeString s) = Ret s.
Proof.
  intros H. rewrite escapeString_ascii by assumption.
  unfold unescapeString.
  exact (unescape_flat_map s [] [] _ (length_flat_map_escape s)).
Qed.

End Escapes.

(** ** The cursor on a known text *)

Section CursorOnText.

Implicit Types (text pre post : bytes) (c b : byte).

Lemma nth_error_middle {A} (pre post : list A) (x : A) :
  nth_error (pre ++ x :: post) (length pre) = Some x.
Proof. rewrite nth_error_app2, Nat.sub_diag; [reflexivity | lia]. Qed.

Lemma atEof_cur text p c :
  nth_error text p = Some c -> atEof (cur text p) 0 = (false, cur text p).
Proof.
  intros H. assert (p < length text)%nat by (apply nth_error_Some; congruence).
  unfold atEof; simpl. rewrite Z.gtb_ltb.
  replace (_ <? _) with false by (symmetry; apply Z.ltb_ge; lia). reflexivity.
Qed.

Lemma at_pos_cur text p c : nth_error text p = Some c -> at_pos (cur text p) = c.
Proof. intros H. unfold at_pos; simpl. rewrite Nat2Z.id. now apply nth_error_nth. Qed.

Lemma set_pos_cur text p : set_pos (cur text p) (Z.of_nat p + 1) = cur text (S p).
Proof. unfold set_pos, cur; simpl. f_equal. lia. Qed.

Lemma peekCurrent_cur text p c :
  nth_error text p = Some c -> peekCurrent (cur text p) = (c, cur text p).
Proof. intros H. unfold peekCurrent. now rewrite (atEof_cur _ _ _ H), (at_pos_cur _ _ _ H). Qed.

Lemma consume_cur text p c :
  nth_error text p = Some c -> consume (cur text p) = (c, cur text (S p)).
Proof.
  intros H. unfold consume. rewrite (atEof_cur _ _ _ H), (at_pos_cur _ _ _ H).
  f_equal. apply set_pos_cur.
Qed.

Lemma consumeByte_cur text p c :
  nth_error text p = Some c -> consumeByte (cur text p) c = cur text (S p).
Proof.
  intros H. unfold consumeByte.
  rewrite (atEof_cur _ _ _ H), (at_pos_cur _ _ _ H), Ascii.eqb_refl. simpl.
  now rewrite (consume_cur _ _ _ H).
Qed.

Lemma consumeWhitespace_loop_cur text ws c post :
  forallb isWhitespace ws = true -> isWhitespace c = false ->
  forall pre n, text = pre ++ ws ++ c :: post -> (length ws <= n)%nat ->
    consumeWhitespace_loop n (cur text (length pre)) = cur text (length pre + length ws).
Proof.
  intros Hws Hc. induction ws as [| w ws IH]; intros pre n Ht Hn.
  - assert (H : nth_error text (length pre) = Some c) by (subst; apply nth_error_middle).
    destruct n; cbn [consumeWhitespace_loop];
      rewrite (atEof_cur _ _ _ H), (at_pos_cur _ _ _ H), Hc; simpl;
      now rewrite Nat.add_0_r.
  - simpl in Hws. apply andb_true_iff in Hws as [Hw Hws].
    assert (H : nth_error text (length pre) = Some w) by (subst; apply nth_error_middle).
    destruct n as [| n]; [simpl in Hn; lia |].
    cbn [consumeWhitespace_loop].
    rewrite (atEof_cur _ _ _ H), (at_pos_cur _ _ _ H), Hw, (consume_cur _ _ _ H). simpl.
    replace (S (length pre)) with (length (pre ++ [w])) by (rewrite length_app; simpl; lia).
    rewrite (IH Hws (pre ++ [w]) n).
    + f_equal. rewrite length_app. simpl. lia.
    + subst. now rewrite <- app_assoc.
    + simpl in Hn. lia.
Qed.

Lemma consumeWhitespace_cur text pre ws c post :
  text = pre ++ ws ++ c :: post ->
  forallb isWhitespace ws = true -> isWhitespace c = false ->
  consumeWhitespace (cur text (length pre)) = cur text (length pre + length ws).
Proof.
  intros Ht Hws Hc. unfold consumeWhitespace.
  apply (consumeWhitespace_loop_cur text ws c post Hws Hc pre _ Ht).
  unfold remaining; simpl. subst. rewrite !length_app. simpl. lia.
Qed.

Lemma consumeUntil_loop_cur text b post x :
  forallb (fun c => negb (Ascii.eqb c b)) x = true ->
  forall pre sb n, text = pre ++ x ++ b :: post -> (length x <= n)%nat ->
    consumeUntil_loop n (cur text (length pre)) b sb
    = (sb ++ x, cur text (length pre + length x)).
Proof.
  induction x as [| c x IH]; intros Hx pre sb n Ht Hn.
  - assert (H : nth_error text (length pre) = Some b) by (subst; apply nth_error_middle).
    destruct n; cbn [consumeUntil_loop];
      rewrite (at_pos_cur _ _ _ H), Ascii.eqb_refl; simpl;
      now rewrite Nat.add_0_r, app_nil_r.
  - simpl in Hx. apply andb_true_iff in Hx as [Hc Hx].
    assert (H : nth_error text (length pre) = Some c) by (subst; apply nth_error_middle).
    assert (Ht' : text = (pre ++ [c]) ++ x ++ b :: post) by (subst; now rewrite <- app_assoc).
    assert (H' : exists c', nth_error text (S (length pre)) = Some c').
    { replace (S (length pre)) with (length (pre ++ [c])) by (rewrite length_app; simpl; lia).
      rewrite Ht'. destruct x; eexists; apply nth_error_middle. }
    destruct H' as [c' H'].
    destruct n as [| n]; [simpl in Hn; lia |].
    cbn [consumeUntil_loop].
    rewrite (at_pos_cur _ _ _ H), Hc, set_pos_cur, (atEof_cur _ _ _ H').
    replace (S (length pre)) with (length (pre ++ [c])) by (rewrite length_app; simpl; lia).
    rewrite (IH Hx (pre ++ [c]) (sb ++ [c]) n Ht') by (simpl in Hn; lia).
    rewrite <- app_assoc, length_app. simpl. do 2 f_equal. lia.
Qed.

Lemma consumeUntil_cur text pre x b post :
  text = pre ++ x ++ b :: post ->
  forallb (fun c => negb (Ascii.eqb c b)) x = true ->
  consumeUntil (cur text (length pre)) b = (x, cur text (length pre + length x)).
Proof.
  intros Ht Hx. unfold consumeUntil.
  assert (H : exists c, nth_error text (length pre) = Some c)
    by (subst; destruct x; eexists; apply nth_error_middle).
  destruct H as [c H]. rewrite (atEof_cur _ _ _ H).
  rewrite (consumeUntil_loop_cur text b post x Hx pre [] _ Ht); [reflexivity |].
  unfold remaining; simpl. subst. rewrite !length_app. simpl. lia.
Qed.

Lemma consumeWhitespace_stay text p c :
  nth_error text p = Some c -> isWhitespace c = false ->
  consumeWhitespace (cur text p) = cur text p.
Proof.
  intros H Hc. unfold consumeWhitespace.
  destruct (remaining (cur text p)); cbn [consumeWhitespace_loop];
    now rewrite (atEof_cur _ _ _ H), (at_pos_cur _ _ _ H), Hc.
Qed.

Lemma terminator_stops t :
  isTerminator t = true ->
  negb (Ascii.eqb t "}") && negb (Ascii.eqb t ",") && negb (Ascii.eqb t "]") = false.
Proof.
  unfold isTerminator.
  destruct (Ascii.eqb t "}"), (Ascii.eqb t ","), (Ascii.eqb t "]"); simpl; congruence.
Qed.

Lemma consumeUntilTerminator_loop_cur text t post x :
  isTerminator t = true ->
  forallb (fun c => negb (isTerminator c)) x = true ->
  forall pre sb fuel, text = pre ++ x ++ t :: post -> (length x <= fuel)%nat ->
    consumeUntilTerminator_loop fuel (cur text (length pre)) sb (hd t x)
    = Ret (sb ++ x, t, cur text (length pre + length x)).
Proof.
  intros Hterm. induction x as [| c x IH]; intros Hx pre sb fuel Ht Hn.
  - destruct fuel; cbn [consumeUntilTerminator_loop hd];
      rewrite (terminator_stops t Hterm); now rewrite Nat.add_0_r, app_nil_r.
  - simpl in Hx. apply andb_true_iff in Hx as [Hc Hx]. apply negb_true_iff in Hc.
    assert (H : nth_error text (length pre) = Some c) by (subst; apply nth_error_middle).
    assert (Ht' : text = (pre ++ [c]) ++ x ++ t :: post) by (subst; now rewrite <- app_assoc).
    assert (H' : nth_error text (S (length pre)) = Some (hd t x)).
    { replace (S (length pre)) with (length (pre ++ [c])) by (rewrite length_app; simpl; lia).
      rewrite Ht'. destruct x; apply nth_error_middle. }
    destruct fuel as [| fuel]; [simpl in Hn; lia |].
    cbn [consumeUntilTerminator_loop hd].
    rewrite (not_terminator_continues c Hc), (consume_cur _ _ _ H). cbn [snd].
    rewrite (peekCurrent_cur _ _ _ H').
    replace (S (length pre)) with (length (pre ++ [c])) by (rewrite length_app; simpl; lia).
    rewrite (IH Hx (pre ++ [c]) (sb ++ [c]) fuel Ht') by (simpl in Hn; lia).
    rewrite <- app_assoc, length_app. simpl. do 3 f_equal. lia.
Qed.

(** With a terminator [t] after the run [x], [consumeUntilTerminator]
    returns [x] without its trailing whitespace and stops on [t]. *)
Lemma consumeUntilTerminator_cur text pre x t post fuel :
  text = pre ++ x ++ t :: post ->
  isTerminator t = true ->
  forallb (fun c => negb (isTerminator c)) x = true ->
  (length x <= fuel)%nat ->
  consumeUntilTerminator fuel (cur text (length pre))
  = Ret (TrimRight x [" "; LF; TAB; CR], t, cur text (length pre + length x)).
Proof.
  intros Ht Hterm Hx Hn. unfold consumeUntilTerminator.
  assert (H : nth_error text (length pre) = Some (hd t x))
    by (subst; destruct x; apply nth_error_middle).
  rewrite (peekCurrent_cur _ _ _ H).
  rewrite (consumeUntilTerminator_loop_cur text t post x Hterm Hx pre [] fuel Ht Hn).
  reflexivity.
Qed.

End CursorOnText.

(** ** A text field through [Serialize] and [Deserialize] *)

Section TextRoundTrip.

Variable rt : runtime.

Lemma Serialize_holder s : Serialize rt (holder s) = Ret (holder_text s).
Proof.
  unfold Serialize, serialize, holder_text. cbn -[escapeString].
  rewrite <- !app_assoc. reflexivity.
Qed.

Lemma TrimRight_quoted y :
  TrimRight (y ++ [dquote; LF]) [" "; LF; TAB; CR] = y ++ [dquote].
Proof.
  unfold TrimRight. rewrite rev_app_distr. simpl. now rewrite rev_involutive.
Qed.

Lemma parseString_quoted e :
  parseString (dquote :: e ++ [dquote]) = s <- unescapeString e ;; Ret (s, None).
Proof.
  unfold parseString.
  change (dquote :: e ++ [dquote]) with ([] ++ dquote :: e ++ [dquote]) at 1.
  rewrite (index_middle [] dquote). cbn [bind]. rewrite Ascii.eqb_refl. cbn [negb skipn].
  replace (Z.of_nat (length (e ++ [dquote])) - 1) with (Z.of_nat (length e))
    by (rewrite length_app; simpl; lia).
  rewrite index_middle. cbn [bind]. rewrite Ascii.eqb_refl. cbn [negb].
  replace (length (e ++ [dquote]) - 1)%nat with (length e) by (rewrite length_app; simpl; lia).
  rewrite firstn_app, Nat.sub_diag, firstn_all. simpl. now rewrite app_nil_r.
Qed.

Lemma escapeByte_no_terminator c :
  isTerminator c = false ->
  forallb (fun c => negb (isTerminator c)) (escapeByte c) = true.
Proof.
  intros H. unfold escapeByte.
  repeat match goal with
         | |- context [Ascii.eqb c ?x] =>
             let E := fresh "E" in
             destruct (Ascii.eqb c x) eqn:E;
             [apply Ascii.eqb_eq in E; subst; reflexivity |]
         end.
  simpl. now rewrite H.
Qed.

Lemma flat_map_escape_no_terminator s :
  forallb (fun c => negb (isTerminator c)) s = true ->
  forallb (fun c => negb (isTerminator c)) (flat_map escapeByte s) = true.
Proof.
  induction s as [| c s IH]; simpl; [reflexivity |].
  intros H. apply andb_true_iff in H as [Hc H]. apply negb_true_iff in Hc.
  rewrite forallb_app, escapeByte_no_terminator, IH; auto.
Qed.

(** The walk over the text of a record with one text field, when the
    escaped text [e] holds no terminator. *)
Lemma Deserialize_holder s e :
  e = escapeString s ->
  forallb (fun c => negb (isTerminator c)) e = true ->
  unescapeString e = Ret s ->
  Deserialize rt (S (S (S (length e + 2)))) (holder_text s) (Zero holder_type)
  = Ret (None, holder s).
Proof.
  intros He Hterm Hun. unfold holder_text. rewrite <- He.
  set (text := _ ++ e ++ _).
  unfold Deserialize, deserialize.
  change (isJsonArray (Kind (Zero holder_type))) with false.
  change (reflect.eqb (Kind (Zero holder_type)) reflect.Struct) with true.
  cbv iota.
  change (makeDeserializer text) with (cur text 0).
  cbn [deserializeObject].
  (* the opening brace and the key *)
  rewrite (consumeByte_cur text 0 "{" eq_refl).
  pose proof (consumeWhitespace_cur text ["{"] [LF; TAB] dquote
             (B "S" ++ [dquote; ":"; " "; dquote] ++ e ++ [dquote; LF; "}"])
             eq_refl eq_refl eq_refl) as W1.
  cbn [length Nat.add] in W1. rewrite W1. clear W1.
  cbn [hasError cur err objectLoop].
  rewrite (peekCurrent_cur text 3 dquote eq_refl).
  change (Ascii.eqb dquote "}") with false. cbv iota.
  unfold consumeKey.
  rewrite (consumeByte_cur text 3 dquote eq_refl).
  pose proof (consumeUntil_cur text ["{"; LF; TAB; dquote] (B "S") dquote
             ([":"; " "; dquote] ++ e ++ [dquote; LF; "}"]) eq_refl eq_refl) as U1.
  cbn [length Nat.add B list_ascii_of_string] in U1. rewrite U1. clear U1.
  rewrite (consumeByte_cur text 5 dquote eq_refl).
  rewrite (consumeByte_cur text 6 ":" eq_refl).
  pose proof (consumeWhitespace_cur text ["{"; LF; TAB; dquote; "S"; dquote; ":"] [" "] dquote
             (e ++ [dquote; LF; "}"]) eq_refl eq_refl eq_refl) as W2.
  cbn [length Nat.add] in W2. rewrite W2. clear W2.
  cbn [hasError cur err].
  change (FieldByName (Zero holder_type) ["S"]) with (Ret (Some (VString []))).
  cbn [bind].
  (* the value is a primitive, a string *)
  rewrite (peekCurrent_cur text 8 dquote eq_refl).
  change (Ascii.eqb dquote "[") with false. cbv iota.
  rewrite (peekCurrent_cur text 8 dquote eq_refl).
  change (Ascii.eqb dquote "{") with false. cbv iota.
  unfold d_isPrimitive. rewrite (peekCurrent_cur text 8 dquote eq_refl).
  match goal with |- context [if ?c then objectPrimitive _ _ _ _ _ _ else _] =>
    change c with true end.
  cbv iota.
  unfold objectPrimitive, parsePrimitiveType.
  rewrite (peekCurrent_cur text 8 dquote eq_refl).
  change (isWhitespace dquote) with false. cbv iota.
  rewrite (peekCurrent_cur text 8 dquote eq_refl).
  rewrite Ascii.eqb_refl.
  cbv iota.
  (* the literal, up to the closing brace *)
  assert (Ht : text = ["{"; LF; TAB; dquote; "S"; dquote; ":"; " "]
                      ++ ((dquote :: e) ++ [dquote; LF]) ++ ["}"]).
  { unfold text. simpl. now rewrite <- app_assoc. }
  assert (Hx : forallb (fun c => negb (isTerminator c)) ((dquote :: e) ++ [dquote; LF]) = true).
  { rewrite forallb_app. simpl. now rewrite Hterm. }
  pose proof (consumeUntilTerminator_cur text _ _ "}" [] (S (length e + 2)) Ht eq_refl Hx) as T1.
  rewrite TrimRight_quoted in T1.
  change (length ["{"; LF; TAB; dquote; "S"; dquote; ":"; " "]) with 8%nat in T1.
  rewrite T1 by (rewrite length_app; simpl; lia). clear T1.
  cbn [bind]. cbn [app]. rewrite parseString_quoted, Hun. cbn [bind SetString].
  change (Ascii.eqb "}" ",") with false. cbv iota.
  cbn [goes_on bind].
  (* the closing brace *)
  set (p := (_ + _)%nat).
  assert (Hp : nth_error text p = Some "}").
  { subst p. rewrite Ht, app_assoc.
    replace (length _ + length _)%nat with
      (length (["{"; LF; TAB; dquote; "S"; dquote; ":"; " "] ++ (dquote :: e) ++ [dquote; LF]))
      by (now rewrite length_app).
    apply nth_error_middle. }
  rewrite (consumeWhitespace_stay text p "}" Hp eq_refl).
  rewrite (peekCurrent_cur text p "}" Hp).
  rewrite Ascii.eqb_refl. cbv iota. cbn [goes_on bind].
  rewrite (consumeWhitespace_stay text p "}" Hp eq_refl).
  rewrite (consumeByte_cur text p "}" Hp).
  reflexivity.
Qed.

(** C7, amended: on ASCII text [unescapeString] undoes [escapeString];
    and when the text moreover holds none of the bytes that end a literal
    (comma, closing brace, closing bracket), a record holding it in a text
    field is read back from its serialized text. *)
Theorem escape_round_trip (s : bytes) :
  forallb is_ascii s = true ->
  unescapeString (escapeString s) = Ret s /\
  (forallb (fun c => negb (isTerminator c)) s = true ->
   Serialize rt (holder s) = Ret (holder_text s) /\
   ends_with (fun fuel => Deserialize rt fuel (holder_text s) (Zero holder_type))
             (Ret (None, holder s))).
Proof.
  intros Ha. split; [now apply unescape_escape |].
  intros Hs. split; [apply Serialize_holder |].
  eapply Deserialize_ends; [| discriminate].
  apply (Deserialize_holder s (escapeString s) eq_refl).
  - rewrite escapeString_ascii by assumption. now apply flat_map_escape_no_terminator.
  - now apply unescape_escape.
Qed.

End TextRoundTrip.

(** ** Examples without variables *)

(** C8, as stated, fails: the text of an empty sequence is not an opening
    bracket, a newline and a closing bracket. *)
Lemma empty_sequence_counterexample :
  Serialize example_runtime (VSlice (TBasic reflect.Int) false [] 0) = Ret ["["; LF; TAB; LF; "]"] /\
  Serialize example_runtime (VSlice (TBasic reflect.Int) false [] 0) <> Ret ["["; LF; "]"].
Proof. split; [reflexivity | discriminate]. Qed.

(** C7, amended, on a text that holds every escaped character. *)
Lemma escape_round_trip_witness :
  unescapeString (escapeString escaped_sample) = Ret escaped_sample /\
  ends_with (fun fuel => Deserialize example_runtime fuel (holder_text escaped_sample)
                           (Zero holder_type))
            (Ret (None, holder escaped_sample)).
Proof.
  destruct (escape_round_trip example_runtime escaped_sample eq_refl) as [H1 H2].
  split; [exact H1 | exact (proj2 (H2 eq_refl))].
Defined.

(** C7, as stated, fails: the literal of a text with a comma is cut at the
    comma, and the call returns an error with the field not written. *)
Lemma comma_counterexample :
  Serialize example_runtime (holder (B "a,b")) = Ret (holder_text (B "a,b")) /\
  ends_with (fun fuel => Deserialize example_runtime fuel (holder_text (B "a,b"))
                           (Zero holder_type))
            (Ret (Some (ErrStringEnd "a"), holder [])) /\
  holder [] <> holder (B "a,b").
Proof.
  split; [reflexivity | split; [| discriminate]].
  apply (Deserialize_ends example_runtime 20); [vm_compute; reflexivity | discriminate].
Qed.

(** [escapeString] ranges over the runes of its argument and writes the
    first byte of each: the second byte of a two-byte sequence is lost. *)
Example escapeString_drops_continuation_bytes :
  escapeString ["195"; "169"] = ["195"] /\
  unescapeString (escapeString ["195"; "169"]) = Ret ["195"].
Proof. split; reflexivity. Qed.

(** * Further properties of the code *)

(** ** The cursor stays on its document

    [moves d d'] (in the vocabulary above) is what every operation of the
    cursor does to it; the walkers are made of these operations, and do
    the same. *)

Section CursorMoves.

Implicit Types (d : deserializer) (b : byte).

Lemma moves_refl d : moves d d.
Proof. unfold moves; repeat split; lia. Qed.

Lemma moves_trans d1 d2 d3 : moves d1 d2 -> moves d2 d3 -> moves d1 d3.
Proof.
  unfold moves; intros (Hj & He & ? & ?) (Hj' & He' & ? & ?).
  repeat split; try congruence; lia.
Qed.

Lemma set_err_moves d e : moves d (set_err d e).
Proof. unfold moves; simpl; repeat split; lia. Qed.

Lemma atEof_moves d o : moves d (snd (atEof d o)).
Proof. destruct (atEof_cases d o) as [[? ->] | [? ->]]; unfold moves; simpl; repeat split; lia. Qed.

Lemma consume_moves d : moves d (snd (consume d)).
Proof.
  unfold consume.
  destruct (atEof_cases d 0) as [[? ->] | [? ->]]; unfold moves; simpl; repeat split; lia.
Qed.

Lemma peekCurrent_moves d : moves d (snd (peekCurrent d)).
Proof.
  unfold peekCurrent.
  destruct (atEof_cases d 0) as [[? ->] | [? ->]]; unfold moves; simpl; repeat split; lia.
Qed.

Lemma consumeByte_moves d b : moves d (consumeByte d b).
Proof.
  unfold consumeByte, consume.
  destruct (atEof_cases d 0) as [[? ->] | [? ->]].
  - unfold moves; simpl; repeat split; lia.
  - destruct (negb _).
    + unfold moves; simpl; repeat split; lia.
    + destruct (atEof_cases d 0) as [[? ->] | [? ->]]; unfold moves; simpl; repeat split; lia.
Qed.

Lemma consumeWhitespace_loop_moves n : forall d, moves d (consumeWhitespace_loop n d).
Proof.
  induction n as [| n IH]; intros d; simpl;
    destruct (atEof_cases d 0) as [[? ->] | [? ->]]; simpl;
    try (unfold moves; simpl; repeat split; lia);
    destruct (isWhitespace _); try apply moves_refl.
  eapply moves_trans; [apply consume_moves | apply IH].
Qed.

Lemma consumeWhitespace_moves d : moves d (consumeWhitespace d).
Proof. apply consumeWhitespace_loop_moves. Qed.

Lemma consumeUntil_loop_moves n b :
  forall d sb, pos d <= eof d -> moves d (snd (consumeUntil_loop n d b sb)).
Proof.
  induction n as [| n IH]; intros d sb Hd; simpl; destruct (negb _); try apply moves_refl;
    match goal with |- context [atEof ?x 0] =>
      destruct (atEof_cases x 0) as [[Hx E] | [Hx E]]; rewrite E; simpl in * end;
    try (eapply moves_trans; [| apply IH; simpl; lia]);
    unfold moves; simpl; repeat split; lia.
Qed.

Lemma consumeUntil_moves d b : moves d (snd (consumeUntil d b)).
Proof.
  unfold consumeUntil.
  destruct (atEof_cases d 0) as [[_ ->] | [? ->]]; [unfold moves; simpl; repeat split; lia |].
  apply consumeUntil_loop_moves; lia.
Qed.

Lemma consumeKey_moves d : moves d (snd (consumeKey d)).
Proof.
  unfold consumeKey.
  pose proof (consumeUntil_moves (consumeByte d dquote) dquote) as H.
  destruct (consumeUntil (consumeByte d dquote) dquote) as [s d1]. simpl in *.
  eapply moves_trans; [apply consumeByte_moves |].
  eapply moves_trans; [apply H |].
  eapply moves_trans; [apply consumeByte_moves |].
  eapply moves_trans; [apply consumeByte_moves |].
  apply consumeWhitespace_moves.
Qed.

Lemma parsePrimitiveType_moves d : moves d (snd (parsePrimitiveType d)).
Proof.
  unfold parsePrimitiveType.
  pose proof (peekCurrent_moves d) as H1.
  destruct (peekCurrent d) as [b d1]. simpl in H1.
  destruct (isWhitespace b); [exact H1 |].
  pose proof (peekCurrent_moves d1) as H2.
  destruct (peekCurrent d1) as [b2 d2]. simpl in H2.
  pose proof (moves_trans _ _ _ H1 H2) as H12.
  repeat (match goal with |- context [if ?c then _ else _] => destruct c end;
          [exact H12 |]).
  pose proof (peekCurrent_moves d2) as H3.
  destruct (peekCurrent d2) as [b3 d3]. simpl in *.
  eapply moves_trans; eassumption.
Qed.

Lemma d_isPrimitive_moves d : moves d (snd (d_isPrimitive d)).
Proof.
  unfold d_isPrimitive. pose proof (peekCurrent_moves d) as H.
  now destruct (peekCurrent d).
Qed.

Lemma consumeUntilTerminator_loop_moves fuel :
  forall d sb b, on_return (fun r => moves d (snd r)) (consumeUntilTerminator_loop fuel d sb b).
Proof.
  induction fuel as [| fuel IH]; intros d sb b; simpl; destruct (_ && _); simpl;
    auto using moves_refl.
  pose proof (peekCurrent_moves (snd (consume d))) as H.
  destruct (peekCurrent (snd (consume d))) as [b' d1]. simpl in H.
  specialize (IH d1 (sb ++ [b]) b').
  destruct (consumeUntilTerminator_loop fuel d1 (sb ++ [b]) b'); simpl in *; auto.
  eapply moves_trans; [apply consume_moves |].
  eapply moves_trans; eassumption.
Qed.

Lemma consumeUntilTerminator_moves fuel d :
  on_return (fun r => moves d (snd r)) (consumeUntilTerminator fuel d).
Proof.
  unfold consumeUntilTerminator.
  pose proof (peekCurrent_moves d) as H.
  destruct (peekCurrent d) as [b d1]. simpl in H.
  pose proof (consumeUntilTerminator_loop_moves fuel d1 [] b) as H1.
  destruct (consumeUntilTerminator_loop fuel d1 [] b) as [[[sb t] d2] | |]; simpl in *; auto.
  eapply moves_trans; eassumption.
Qed.

(** X1: no operation of the cursor changes the document or the index of
    its last byte, none moves the position back, and none moves a
    position that is inside the document or just behind it further than
    just behind it.  [consumeUntilTerminator] may not return; the
    statement is about the cursor it returns. *)
Theorem cursor_operations_stay_on_document d b offset fuel :
  moves d (snd (atEof d offset)) /\
  moves d (snd (peekCurrent d)) /\
  moves d (snd (consume d)) /\
  moves d (consumeByte d b) /\
  moves d (consumeWhitespace d) /\
  moves d (snd (consumeUntil d b)) /\
  moves d (snd (consumeKey d)) /\
  moves d (snd (d_isPrimitive d)) /\
  moves d (snd (parsePrimitiveType d)) /\
  on_return (fun r => moves d (snd r)) (consumeUntilTerminator fuel d).
Proof.
  repeat match goal with |- _ /\ _ => split end;
    auto using atEof_moves, peekCurrent_moves, consume_moves, consumeByte_moves,
      consumeWhitespace_moves, consumeUntil_moves, consumeKey_moves, d_isPrimitive_moves,
      parsePrimitiveType_moves, consumeUntilTerminator_moves.
Qed.

End CursorMoves.

(** ** The walkers stay on the document

    What holds of the cursor operations holds of [deserializeArray] and
    [deserializeObject], whatever the document and the target are. *)

Section WalkerMoves.

Variable rt : runtime.

Lemma on_return_bind {A B} (Q : A -> Prop) (P : B -> Prop) (m : outcome A) (k : A -> outcome B) :
  on_return Q m -> (forall a, Q a -> on_return P (k a)) -> on_return P (bind m k).
Proof. destruct m; simpl; auto. Qed.

Lemma on_return_any {A} (m : outcome A) : on_return (fun _ => True) m.
Proof. now destruct m. Qed.

Ltac chain :=
  cbn [fst snd] in *;
  repeat match goal with
    | |- moves ?d ?d => apply moves_refl
    | H : moves ?d ?x |- moves ?d ?x => exact H
    | |- moves _ (if ?c then _ else _) => destruct c
    | |- moves _ (consumeByte _ _) => eapply moves_trans; [| apply consumeByte_moves]
    | |- moves _ (consumeWhitespace _) => eapply moves_trans; [| apply consumeWhitespace_moves]
    | |- moves _ (set_err _ _) => eapply moves_trans; [| apply set_err_moves]
    | H : moves _ ?x |- moves _ ?x => eapply moves_trans; [| exact H]
    end.

Ltac cursor_step :=
  match goal with
  | |- context [peekCurrent ?d] =>
      let H := fresh "Hadv" in
      pose proof (peekCurrent_moves d) as H;
      destruct (peekCurrent d) as [? ?]; cbn [snd fst] in H
  | |- context [d_isPrimitive ?d] =>
      let H := fresh "Hadv" in
      pose proof (d_isPrimitive_moves d) as H;
      destruct (d_isPrimitive d) as [? ?]; cbn [snd fst] in H
  | |- context [consumeKey ?d] =>
      let H := fresh "Hadv" in
      pose proof (consumeKey_moves d) as H;
      destruct (consumeKey d) as [? ?]; cbn [snd fst] in H
  | |- context [parsePrimitiveType ?d] =>
      let H := fresh "Hadv" in
      pose proof (parsePrimitiveType_moves d) as H;
      destruct (parsePrimitiveType d) as [[? ?] ?]; cbn [snd fst] in H
  end.

Lemma on_return_weaken {A} (Q P : A -> Prop) (m : outcome A) :
  on_return Q m -> (forall a, Q a -> P a) -> on_return P m.
Proof. destruct m; simpl; auto. Qed.

Lemma bind_Ret {A B} (a : A) (k : A -> outcome B) : bind (Ret a) k = k a.
Proof. reflexivity. Qed.

Lemma bind_assoc {A B C} (m : outcome A) (f : A -> outcome B) (k : B -> outcome C) :
  bind (bind m f) k = bind m (fun x => bind (f x) k).
Proof. now destruct m. Qed.

Ltac call d L pat :=
  apply (on_return_bind (fun r => moves d (fst (fst r)))); [apply L | intros pat ?].

Ltac walk1 IHa IHl IHo IHol Pa Po :=
  first
    [ progress unfold returned, goes_on
    | progress cbn [on_return fst snd]
    | exact I
    | rewrite bind_Ret
    | cursor_step
    | rewrite bind_assoc
    | match goal with
      | |- on_return _ (bind (consumeUntilTerminator ?f ?d) _) =>
          apply (on_return_bind (fun r => moves d (snd r)));
          [apply consumeUntilTerminator_moves | intros [[? ?] ?] ?]
      | |- on_return _ (bind (deserializeArray _ _ ?d _) _) =>
          apply (on_return_bind (fun r => moves d (fst r))); [apply IHa | intros [? ?] ?]
      | |- on_return _ (bind (deserializeObject _ _ ?d _) _) =>
          apply (on_return_bind (fun r => moves d (fst r))); [apply IHo | intros [? ?] ?]
      | |- on_return _ (bind (arrayLoop _ _ ?d _ _) _) =>
          apply (on_return_bind (fun r => moves d (fst (fst r)))); [apply IHl | intros [[? ?] ?] ?]
      | |- on_return _ (bind (objectLoop _ _ ?d _) _) =>
          apply (on_return_bind (fun r => moves d (fst (fst r)))); [apply IHol | intros [[? ?] ?] ?]
      | |- on_return _ (bind (arrayPrimitive _ _ ?d _ _) _) =>
          apply (on_return_bind (fun r => moves d (fst (fst r)))); [apply Pa | intros [[? ?] ?] ?]
      | |- on_return _ (bind (objectPrimitive _ _ ?d _ _ _) _) =>
          apply (on_return_bind (fun r => moves d (fst (fst r)))); [apply Po | intros [[? ?] ?] ?]
      | |- on_return _ (bind (match ?x with _ => _ end) _) => destruct x
      | |- on_return _ (bind _ _) =>
          apply (on_return_bind (fun _ => True)); [apply on_return_any | intros ? _]
      | |- on_return _ (match ?x with _ => _ end) => destruct x
      | |- on_return _ (arrayLoop _ _ _ _ _) =>
          eapply on_return_weaken; [apply IHl | cbn beta; intros [[? ?] ?]; cbn [fst snd]; intros ?]
      | |- on_return _ (objectLoop _ _ _ _) =>
          eapply on_return_weaken; [apply IHol | cbn beta; intros [[? ?] ?]; cbn [fst snd]; intros ?]
      end ].

Ltac walk IHa IHl IHo IHol Pa Po := repeat walk1 IHa IHl IHo IHol Pa Po.

Lemma arrayPrimitive_moves fuel d v i :
  on_return (fun r => moves d (fst (fst r))) (arrayPrimitive rt fuel d v i).
Proof.
  unfold arrayPrimitive.
  walk I I I I I I; try chain.
  all: try (destruct (parseUint _)); try (destruct (parseInt _)); try (destruct (ParseFloat _ _));
    try (destruct (parseBool _)); walk I I I I I I; try chain.
Qed.

Lemma objectPrimitive_moves fuel d v key x :
  on_return (fun r => moves d (fst (fst r))) (objectPrimitive rt fuel d v key x).
Proof.
  unfold objectPrimitive.
  walk I I I I I I; try chain.
Qed.

Lemma walkers_moves fuel :
  (forall d v, on_return (fun r => moves d (fst r)) (deserializeArray rt fuel d v)) /\
  (forall d v i, on_return (fun r => moves d (fst (fst r))) (arrayLoop rt fuel d v i)) /\
  (forall d v, on_return (fun r => moves d (fst r)) (deserializeObject rt fuel d v)) /\
  (forall d v, on_return (fun r => moves d (fst (fst r))) (objectLoop rt fuel d v)).
Proof.
  induction fuel as [| fuel (IHa & IHl & IHo & IHol)]; [repeat split; intros; exact I |].
  pose proof (arrayPrimitive_moves fuel) as Pa.
  pose proof (objectPrimitive_moves fuel) as Po.
  repeat split; intros; cbn [deserializeArray arrayLoop deserializeObject objectLoop].
  - walk IHa IHl IHo IHol Pa Po; chain.
  - walk IHa IHl IHo IHol Pa Po; try chain.
  - walk IHa IHl IHo IHol Pa Po; chain.
  - walk IHa IHl IHo IHol Pa Po; try chain.
Qed.

(** X2: when [deserializeArray] or [deserializeObject] returns, for any
    document, target and cursor it was called with, the cursor it leaves
    is on the same document, not before the position of the call, and not
    further than just behind the last byte if the call was not. *)
Theorem walkers_stay_on_document fuel d v :
  on_return (fun r => moves d (fst r)) (deserializeArray rt fuel d v) /\
  on_return (fun r => moves d (fst r)) (deserializeObject rt fuel d v).
Proof. destruct (walkers_moves fuel) as (Ha & _ & Ho & _). split; [apply Ha | apply Ho]. Qed.

End WalkerMoves.

(** ** What the scanning operations return

    The cursor has no error and stands behind [pre] in the text
    [pre ++ rest]. *)

Section Scans.

Implicit Types (pre rest text : bytes) (f : byte -> bool) (b c : byte).

Lemma takeWhile_dropWhile f s : takeWhile f s ++ dropWhile f s = s.
Proof. induction s as [| c s IH]; simpl; [reflexivity |]. destruct (f c); simpl; congruence. Qed.

Lemma forallb_takeWhile f s : forallb f (takeWhile f s) = true.
Proof. induction s as [| c s IH]; simpl; [reflexivity |]. destruct (f c) eqn:E; simpl; [now rewrite E |]. reflexivity. Qed.

Lemma dropWhile_head f s c s' : dropWhile f s = c :: s' -> f c = false.
Proof.
  induction s as [| a s IH]; simpl; [discriminate |].
  destruct (f a) eqn:E; [exact IH |]. intros [= <- _]. exact E.
Qed.

Lemma dropWhile_nil f s : dropWhile f s = [] -> forallb f s = true.
Proof.
  induction s as [| a s IH]; simpl; [reflexivity |].
  destruct (f a); [exact IH | discriminate].
Qed.

Lemma atEof_cur_end text :
  atEof (cur text (length text)) 0 = (true, set_err (cur text (length text)) ErrEof).
Proof. destruct (atEof_cases (cur text (length text)) 0) as [[_ ->] | [H _]]; [reflexivity |]. simpl in H. lia. Qed.

Lemma consumeWhitespace_loop_end ws :
  forallb isWhitespace ws = true ->
  forall pre n text, text = pre ++ ws -> (length ws <= n)%nat ->
    consumeWhitespace_loop n (cur text (length pre))
    = set_err (cur text (length text)) ErrEof.
Proof.
  induction ws as [| w ws IH]; intros Hws pre n text Ht Hn.
  - rewrite app_nil_r in Ht. subst pre.
    destruct n; cbn [consumeWhitespace_loop]; now rewrite atEof_cur_end.
  - simpl in Hws. apply andb_true_iff in Hws as [Hw Hws].
    assert (H : nth_error text (length pre) = Some w) by (subst; apply nth_error_middle).
    destruct n as [| n]; [simpl in Hn; lia |].
    cbn [consumeWhitespace_loop].
    rewrite (atEof_cur _ _ _ H), (at_pos_cur _ _ _ H), Hw, (consume_cur _ _ _ H). simpl.
    replace (S (length pre)) with (length (pre ++ [w])) by (rewrite length_app; simpl; lia).
    apply (IH Hws (pre ++ [w]) n).
    + subst. now rewrite <- app_assoc.
    + simpl in Hn. lia.
Qed.

(** X3: [consumeWhitespace] leaves the cursor on the first byte that is
    not a tab, a space, a line feed or a carriage return, without an
    error; when only such bytes are left (or none), it leaves the cursor
    behind the last byte and sets the end-of-input error, although
    nothing was asked of the input. *)
Theorem consumeWhitespace_returns pre rest :
  consumeWhitespace (cur (pre ++ rest) (length pre)) =
    match dropWhile isWhitespace rest with
    | [] => set_err (cur (pre ++ rest) (length (pre ++ rest))) ErrEof
    | _ :: _ => cur (pre ++ rest) (length pre + length (takeWhile isWhitespace rest))
    end.
Proof.
  destruct (dropWhile isWhitespace rest) as [| c post] eqn:E.
  - apply consumeWhitespace_loop_end with (ws := rest); auto using dropWhile_nil.
    unfold remaining; simpl. rewrite length_app. lia.
  - apply consumeWhitespace_cur with (c := c) (post := post).
    + now rewrite <- E, takeWhile_dropWhile.
    + apply forallb_takeWhile.
    + exact (dropWhile_head _ _ _ _ E).
Qed.

Lemma consumeUntil_loop_end b x :
  forallb (fun c => negb (Ascii.eqb c b)) x = true -> x <> [] ->
  forall pre sb n text, text = pre ++ x -> (length x <= S n)%nat ->
    consumeUntil_loop n (cur text (length pre)) b sb
    = ([], set_err (cur text (length text)) ErrEof).
Proof.
  induction x as [| c x IH]; intros Hx Hne pre sb n text Ht Hn; [congruence |].
  simpl in Hx. apply andb_true_iff in Hx as [Hc Hx].
  assert (H : nth_error text (length pre) = Some c) by (subst; apply nth_error_middle).
  assert (Ht' : text = (pre ++ [c]) ++ x) by (subst; now rewrite <- app_assoc).
  assert (Hl : S (length pre) = length (pre ++ [c])) by (rewrite length_app; simpl; lia).
  destruct x as [| c' x].
  - assert (He : S (length pre) = length text) by (rewrite Ht', app_nil_r; exact Hl).
    destruct n; cbn [consumeUntil_loop];
      now rewrite (at_pos_cur _ _ _ H), Hc, set_pos_cur, He, atEof_cur_end.
  - assert (H' : nth_error text (S (length pre)) = Some c')
      by (rewrite Hl, Ht'; apply nth_error_middle).
    destruct n as [| n]; [simpl in Hn; lia |].
    cbn [consumeUntil_loop].
    rewrite (at_pos_cur _ _ _ H), Hc, set_pos_cur, (atEof_cur _ _ _ H'), Hl.
    apply (IH Hx); [discriminate | exact Ht' | simpl in *; lia].
Qed.

(** X4: [consumeUntil(b)] returns the bytes before the first [b] and
    leaves the cursor on that [b]; when no [b] is left, it returns the
    empty string, not what it has read, with the cursor behind the last
    byte and the end-of-input error set. *)
Theorem consumeUntil_returns pre rest b :
  consumeUntil (cur (pre ++ rest) (length pre)) b =
    match dropWhile (fun c => negb (Ascii.eqb c b)) rest with
    | [] => ([], set_err (cur (pre ++ rest) (length (pre ++ rest))) ErrEof)
    | _ :: _ =>
        let x := takeWhile (fun c => negb (Ascii.eqb c b)) rest in
        (x, cur (pre ++ rest) (length pre + length x))
    end.
Proof.
  destruct (dropWhile _ rest) as [| c post] eqn:E.
  - apply dropWhile_nil in E. unfold consumeUntil.
    destruct rest as [| r rest].
    + rewrite app_nil_r. now rewrite atEof_cur_end.
    + rewrite (atEof_cur _ _ r) by apply nth_error_middle.
      apply consumeUntil_loop_end with (x := r :: rest); auto; [discriminate |].
      unfold remaining; simpl. rewrite length_app. simpl. lia.
  - pose proof (dropWhile_head _ _ _ _ E) as Hc.
    apply negb_false_iff, Ascii.eqb_eq in Hc. subst c.
    apply consumeUntil_cur with (post := post).
    + now rewrite <- E, takeWhile_dropWhile.
    + apply forallb_takeWhile.
Qed.

(** X5: [consumeUntilTerminator] returns exactly when one of [}], [,]
    and [\]] is still ahead: it then returns the bytes before the first
    of them without their trailing whitespace, and that terminator, and
    leaves the cursor on it; with none ahead it never returns. *)
Theorem consumeUntilTerminator_returns pre rest :
  let run fuel := consumeUntilTerminator fuel (cur (pre ++ rest) (length pre)) in
  match dropWhile (fun c => negb (isTerminator c)) rest with
  | [] => diverges run
  | t :: _ =>
      let x := takeWhile (fun c => negb (isTerminator c)) rest in
      ends_with run (Ret (TrimRight x [" "; LF; TAB; CR], t,
                          cur (pre ++ rest) (length pre + length x)))
  end.
Proof.
  intros run. destruct (dropWhile _ rest) as [| t post] eqn:E.
  - apply dropWhile_nil in E. intros fuel. unfold run.
    apply consumeUntilTerminator_diverges; [simpl; lia |].
    unfold no_terminator_ahead. simpl.
    now rewrite Nat2Z.id, skipn_app, skipn_all, Nat.sub_diag.
  - pose proof (dropWhile_head _ _ _ _ E) as Ht. apply negb_false_iff in Ht.
    split; [discriminate |].
    exists (length (takeWhile (fun c => negb (isTerminator c)) rest)). intros fuel Hf.
    apply consumeUntilTerminator_cur with (post := post); auto.
    + now rewrite <- E, takeWhile_dropWhile.
    + apply forallb_takeWhile.
Qed.

End Scans.

(** ** Keys, and documents without members *)

Section Keys.

Variable rt : runtime.

Implicit Types (pre post text k ws junk : bytes) (c : byte).

Lemma length_snoc {A} (l : list A) (x : A) : length (l ++ [x]) = S (length l).
Proof. rewrite length_app. simpl. lia. Qed.

(** The key [k], its quotes, the colon and the whitespace [ws] behind it. *)
Lemma consumeKey_cur text pre k ws c post :
  text = pre ++ dquote :: k ++ dquote :: ":" :: ws ++ c :: post ->
  forallb (fun x => negb (Ascii.eqb x dquote)) k = true ->
  forallb isWhitespace ws = true -> isWhitespace c = false ->
  consumeKey (cur text (length pre))
  = (k, cur text (length pre + length k + 3 + length ws)).
Proof.
  intros Ht Hk Hws Hc. unfold consumeKey.
  rewrite (consumeByte_cur text (length pre) dquote) by (subst; apply nth_error_middle).
  rewrite <- (length_snoc pre dquote).
  rewrite (consumeUntil_cur text (pre ++ [dquote]) k dquote (":" :: ws ++ c :: post))
    by (subst; rewrite <- ?app_assoc; auto).
  rewrite <- length_app.
  assert (H1 : nth_error text (length ((pre ++ [dquote]) ++ k)) = Some dquote).
  { subst. replace (pre ++ dquote :: k ++ dquote :: ":" :: ws ++ c :: post)
      with (((pre ++ [dquote]) ++ k) ++ dquote :: ":" :: ws ++ c :: post)
      by (now rewrite <- !app_assoc).
    apply nth_error_middle. }
  rewrite (consumeByte_cur _ _ _ H1).
  rewrite <- (length_snoc _ dquote).
  assert (H2 : nth_error text (length (((pre ++ [dquote]) ++ k) ++ [dquote])) = Some ":"%char).
  { subst. replace (pre ++ dquote :: k ++ dquote :: ":" :: ws ++ c :: post)
      with ((((pre ++ [dquote]) ++ k) ++ [dquote]) ++ ":" :: ws ++ c :: post)
      by (now rewrite <- !app_assoc).
    apply nth_error_middle. }
  rewrite (consumeByte_cur _ _ _ H2).
  rewrite <- (length_snoc _ ":"%char).
  rewrite (consumeWhitespace_cur text _ ws c post); auto.
  - do 2 f_equal. rewrite !length_app. simpl. lia.
  - subst. now rewrite <- !app_assoc.
Qed.

(** X6: [consumeKey] on a quoted key that is followed at once by a colon
    returns the bytes between the quotes, as they are (no escape is
    undone), and leaves the cursor on the first byte of the value, behind
    the whitespace that follows the colon. *)
Theorem consumeKey_returns pre k ws c post :
  forallb (fun x => negb (Ascii.eqb x dquote)) k = true ->
  forallb isWhitespace ws = true -> isWhitespace c = false ->
  let text := pre ++ dquote :: k ++ dquote :: ":" :: ws ++ c :: post in
  consumeKey (cur text (length pre))
  = (k, cur text (length pre + length k + 3 + length ws)).
Proof. intros Hk Hws Hc text. now apply consumeKey_cur with (c := c) (post := post). Qed.


(** X8: a document that is an opening bracket, whitespace and a closing
    bracket leaves a slice or an array as it is: the elements it holds are
    neither removed nor reset; a document that is an opening brace,
    whitespace and a closing brace leaves a record as it is.  No error is
    returned, whatever bytes follow the closing byte. *)
Theorem empty_document_keeps_target v ws junk :
  forallb isWhitespace ws = true ->
  (isJsonArray (Kind v) = true ->
   ends_with (fun fuel => Deserialize rt fuel ("[" :: ws ++ "]" :: junk) v) (Ret (None, v))) /\
  (Kind v = reflect.Struct ->
   ends_with (fun fuel => Deserialize rt fuel ("{" :: ws ++ "}" :: junk) v) (Ret (None, v))).
Proof.
  intros Hws. split; intros Hv; (apply (Deserialize_ends rt 2); [| discriminate]);
    set (text := _ :: _); unfold Deserialize, deserialize.
  - rewrite Hv. change (makeDeserializer text) with (cur text 0).
    cbn [deserializeArray]. rewrite Hv. cbn [negb].
    rewrite (consumeByte_cur text 0 "[" eq_refl).
    pose proof (consumeWhitespace_cur text ["["] ws "]" junk eq_refl Hws eq_refl) as W.
    cbn [length Nat.add] in W. rewrite W. clear W.
    cbn [hasError cur err arrayLoop].
    assert (Hp : nth_error text (S (length ws)) = Some "]"%char)
      by (change (S (length ws)) with (length ("[" :: ws)); apply (nth_error_middle ("[" :: ws))).
    rewrite (peekCurrent_cur text _ _ Hp). rewrite Ascii.eqb_refl. cbn [goes_on bind].
    rewrite (consumeWhitespace_stay text _ _ Hp eq_refl), (consumeByte_cur text _ _ Hp).
    reflexivity.
  - rewrite Hv. change (isJsonArray reflect.Struct) with false.
    change (reflect.eqb reflect.Struct reflect.Struct) with true. cbv iota.
    change (makeDeserializer text) with (cur text 0).
    cbn [deserializeObject].
    rewrite (consumeByte_cur text 0 "{" eq_refl).
    pose proof (consumeWhitespace_cur text ["{"] ws "}" junk eq_refl Hws eq_refl) as W.
    cbn [length Nat.add] in W. rewrite W. clear W.
    cbn [hasError cur err objectLoop].
    assert (Hp : nth_error text (S (length ws)) = Some "}"%char)
      by (change (S (length ws)) with (length ("{" :: ws)); apply (nth_error_middle ("{" :: ws))).
    rewrite (peekCurrent_cur text _ _ Hp). rewrite Ascii.eqb_refl. cbn [goes_on bind].
    rewrite (consumeWhitespace_stay text _ _ Hp eq_refl), (consumeByte_cur text _ _ Hp).
    reflexivity.
Qed.

End Keys.

(** ** Growing a slice *)

Section Grow.

Lemma skipn_repeat_zero {A} (x : A) n : forall m, skipn n (repeat x m) = repeat x (m - n).
Proof.
  induction n as [| n IH]; intros [| m]; simpl; auto.
Qed.

(** X9: for a slice whose length is within its capacity and an index that
    is at most the capacity (the loop of [deserializeArray] raises the
    index by one in every pass), the step that makes room does not panic;
    afterwards the index is below the length, the length is within the
    capacity, and the elements below the old length are the old ones.
    When the index has reached the capacity the backing store is replaced
    by one of one and a half times the capacity, and of at least 4, whose
    new slots hold the zero value. *)
Theorem growSlice_makes_room elem isnil store len i :
  (len <= length store)%nat -> (i <= length store)%nat ->
  let cap := length store in
  let newcap := Nat.max (cap + cap / 2) 4 in
  let store' := if (cap <=? i)%nat
                then firstn len store ++ repeat (Zero elem) (newcap - len)
                else store in
  growSlice (VSlice elem isnil store len) i
  = Ret (VSlice elem (if (cap <=? i)%nat then false else isnil) store' (Nat.max len (S i))) /\
  (i < Nat.max len (S i) <= length store')%nat /\
  firstn len store' = firstn len store.
Proof.
  intros Hlen Hi cap newcap store'. subst store'.
  assert (Hnew : ((if (cap + cap / 2 <? 4)%nat then 4 else cap + cap / 2) = newcap)%nat).
  { unfold newcap. destruct (Nat.ltb_spec (cap + cap / 2) 4); lia. }
  assert (Hroom : (cap <= i -> S i <= newcap)%nat).
  { intros H. assert (i = cap) by (unfold cap in *; lia). subst i.
    destruct (Nat.le_gt_cases 4 cap) as [H4 | H4].
    - assert (1 <= cap / 2)%nat by (apply Nat.div_le_lower_bound; lia). lia.
    - lia. }
  unfold growSlice. cbn [Cap bind]. fold cap.
  destruct (Nat.leb_spec cap i) as [Hc | Hc].
  - cbn [Elem Len bind]. rewrite Hnew. unfold MakeSlice.
    replace (newcap <? len)%nat with false by (symmetry; apply Nat.ltb_ge; lia).
    cbn [bind Copy Len]. rewrite Nat.min_id, skipn_repeat_zero.
    assert (Hl : length (firstn len store ++ repeat (Zero elem) (newcap - len)) = newcap).
    { rewrite length_app, length_firstn, repeat_length. fold cap. lia. }
    repeat split.
    + destruct (Nat.leb_spec len i) as [Hli | Hli].
      * unfold SetLen. rewrite Hl.
        replace (newcap <? i + 1)%nat with false by (symmetry; apply Nat.ltb_ge; lia).
        do 2 f_equal. lia.
      * do 2 f_equal. lia.
    + lia.
    + rewrite Hl. specialize (Hroom Hc). unfold cap in *. lia.
    + rewrite firstn_app, length_firstn, firstn_firstn.
      replace (len - Nat.min len (length store))%nat with 0%nat by lia.
      rewrite Nat.min_id. simpl. now rewrite app_nil_r.
  - cbn [bind Len]. repeat split.
    + destruct (Nat.leb_spec len i) as [Hli | Hli].
      * unfold SetLen.
        replace (length store <? i + 1)%nat with false
          by (symmetry; apply Nat.ltb_ge; unfold cap in *; lia).
        do 2 f_equal. lia.
      * do 2 f_equal. lia.
    + lia.
    + unfold cap in *. lia.
Qed.

End Grow.

(** ** Escapes, on any text *)

Section EscapesAnyText.

Implicit Types (s pre sb : bytes) (c x : byte).

Lemma index_past_end s : index s (Z.of_nat (length s))
  = Panic (IndexOutOfRange (Z.of_nat (length s)) (Z.of_nat (length s))).
Proof.
  unfold index. rewrite Z.leb_refl, orb_true_r. reflexivity.
Qed.

Lemma unescape_loop_reads s :
  forall n pre sb, (length s <= n)%nat ->
    unescapeString_loop n (pre ++ s) (Z.of_nat (length pre)) sb =
    match unescaped s with
    | Some r => Ret (sb ++ r)
    | None => Panic (IndexOutOfRange (Z.of_nat (length (pre ++ s)))
                                     (Z.of_nat (length (pre ++ s))))
    end.
Proof.
  intros n. revert s. induction n as [| n IH]; intros s pre sb Hn.
  - destruct s; [| simpl in Hn; lia]. simpl.
    rewrite !app_nil_r, Z.ltb_irrefl. reflexivity.
  - destruct s as [| c s].
    + simpl. rewrite !app_nil_r, Z.ltb_irrefl. reflexivity.
    + cbn [unescapeString_loop].
      replace (Z.of_nat (length pre) <? Z.of_nat (length (pre ++ c :: s))) with true
        by (symmetry; apply Z.ltb_lt; rewrite length_app; simpl; lia).
      rewrite index_middle. cbn [bind unescaped].
      replace (Z.of_nat (length pre) + 1) with (Z.of_nat (length (pre ++ [c])))
        by (rewrite length_app; simpl; lia).
      replace (pre ++ c :: s) with ((pre ++ [c]) ++ s) by (now rewrite <- app_assoc).
      destruct (Ascii.eqb c backslash).
      * destruct s as [| ch s].
        -- rewrite app_nil_r. now rewrite index_past_end.
        -- rewrite index_middle. cbn [bind].
           replace (Z.of_nat (length (pre ++ [c])) + 1)
             with (Z.of_nat (length ((pre ++ [c]) ++ [ch])))
             by (rewrite !length_app; simpl; lia).
           replace ((pre ++ [c]) ++ ch :: s) with (((pre ++ [c]) ++ [ch]) ++ s)
             by (now rewrite <- (app_assoc _ [ch] s)).
           rewrite IH by (simpl in Hn; lia).
           destruct (unescaped s); simpl; [now rewrite app_assoc | reflexivity].
      * rewrite IH by (simpl in Hn; lia).
        destruct (unescaped s); simpl; [now rewrite <- app_assoc | reflexivity].
Qed.

Lemma takeWhile_snoc_false (f : ascii -> bool) l c :
  f c = false -> takeWhile f (l ++ [c]) = takeWhile f l.
Proof.
  intros H. induction l as [| a l IH]; simpl; [now rewrite H |].
  destruct (f a); congruence.
Qed.

Lemma takeWhile_snoc_true (f : ascii -> bool) l c :
  f c = true ->
  takeWhile f (l ++ [c]) = if forallb f l then l ++ [c] else takeWhile f l.
Proof.
  intros H. induction l as [| a l IH]; simpl; [now rewrite H |].
  destruct (f a); simpl; [| reflexivity].
  rewrite IH. now destruct (forallb f l).
Qed.

Lemma takeWhile_all (f : ascii -> bool) l : forallb f l = true -> takeWhile f l = l.
Proof.
  induction l as [| a l IH]; simpl; [reflexivity |].
  destruct (f a); simpl; [intros H; now rewrite IH | discriminate].
Qed.

Lemma forallb_rev (f : ascii -> bool) l : forallb f (rev l) = forallb f l.
Proof.
  induction l as [| a l IH]; simpl; [reflexivity |].
  rewrite forallb_app, IH. simpl. rewrite andb_true_r. apply andb_comm.
Qed.

Lemma trailing_other c s :
  Ascii.eqb c backslash = false -> trailing_backslashes (c :: s) = trailing_backslashes s.
Proof. intros H. unfold trailing_backslashes. simpl. now rewrite takeWhile_snoc_false. Qed.

Lemma trailing_backslash s :
  trailing_backslashes (backslash :: s)
  = if forallb (fun c => Ascii.eqb c backslash) s then S (length s) else trailing_backslashes s.
Proof.
  unfold trailing_backslashes. simpl. rewrite takeWhile_snoc_true by reflexivity.
  rewrite forallb_rev. destruct (forallb _ s); [| reflexivity].
  rewrite length_app, length_rev. simpl. lia.
Qed.

Lemma trailing_all s :
  forallb (fun c => Ascii.eqb c backslash) s = true -> trailing_backslashes s = length s.
Proof.
  intros H. unfold trailing_backslashes.
  rewrite takeWhile_all by (now rewrite forallb_rev). apply length_rev.
Qed.

Lemma unescaped_cons c s :
  unescaped (c :: s) =
  if Ascii.eqb c backslash then
    match s with
    | [] => None
    | ch :: s'' => option_map (app (unescapeByte ch)) (unescaped s'')
    end
  else option_map (cons c) (unescaped s).
Proof. reflexivity. Qed.

Lemma unescaped_odd_both s :
  (forall c, (unescaped (c :: s) = None <-> Nat.odd (trailing_backslashes (c :: s)) = true)) /\
  (unescaped s = None <-> Nat.odd (trailing_backslashes s) = true).
Proof.
  induction s as [| a s [IH1 IH2]].
  - split; [| simpl; split; discriminate].
    intros c. cbn [unescaped]. destruct (Ascii.eqb c backslash) eqn:E.
    + apply Ascii.eqb_eq in E. subst. split; reflexivity.
    + rewrite trailing_other by assumption. simpl. split; discriminate.
  - split; [| apply IH1].
    intros c. rewrite (unescaped_cons c (a :: s)). destruct (Ascii.eqb c backslash) eqn:E.
    + apply Ascii.eqb_eq in E. subst c.
      assert (H : Nat.odd (trailing_backslashes (backslash :: a :: s))
                  = Nat.odd (trailing_backslashes s)).
      { rewrite trailing_backslash. cbn [forallb].
        destruct (Ascii.eqb a backslash) eqn:Ea.
        - apply Ascii.eqb_eq in Ea. subst a. rewrite trailing_backslash. cbn [andb].
          destruct (forallb _ s) eqn:Es.
          + rewrite (trailing_all s Es). cbn [length]. now rewrite Nat.odd_succ_succ.
          + reflexivity.
        - cbn [andb]. now rewrite trailing_other. }
      rewrite H, <- IH2. destruct (unescaped s); simpl; split; congruence.
    + rewrite trailing_other by assumption. rewrite <- (IH1 a).
      destruct (unescaped (a :: s)); simpl; split; congruence.
Qed.

Lemma length_unescapeByte ch : (length (unescapeByte ch) <= 1)%nat.
Proof.
  unfold unescapeByte.
  repeat match goal with |- context [if ?b then _ else _] => destruct b end; simpl; lia.
Qed.

Lemma unescaped_shorter_both s :
  (forall c r, unescaped (c :: s) = Some r -> (length r <= S (length s))%nat) /\
  (forall r, unescaped s = Some r -> (length r <= length s)%nat).
Proof.
  induction s as [| a s [IH1 IH2]].
  - split; [| intros r [= <-]; simpl; lia].
    intros c r. cbn [unescaped]. destruct (Ascii.eqb c backslash); [discriminate |].
    intros [= <-]. simpl. lia.
  - split; [| apply IH1].
    intros c r. rewrite (unescaped_cons c (a :: s)). destruct (Ascii.eqb c backslash).
    + destruct (unescaped s) as [r' |] eqn:E; simpl; [| discriminate].
      intros [= <-]. rewrite length_app.
      pose proof (length_unescapeByte a). specialize (IH2 r' eq_refl). simpl. lia.
    + destruct (unescaped (a :: s)) as [r' |] eqn:E; simpl; [| discriminate].
      intros [= <-]. specialize (IH1 a r' E). simpl in *. lia.
Qed.

(** X10: [unescapeString] panics, reading one byte behind the end of
    its argument, exactly on the texts that end in an odd number of
    backslashes; on every other text it returns, and what it returns is
    not longer than the text. *)
Theorem unescape_panics_on_odd_backslashes s :
  if Nat.odd (trailing_backslashes s)
  then unescapeString s
       = Panic (IndexOutOfRange (Z.of_nat (length s)) (Z.of_nat (length s)))
  else exists r, unescapeString s = Ret r /\ (length r <= length s)%nat.
Proof.
  unfold unescapeString.
  pose proof (unescape_loop_reads s (length s) [] [] (le_n _)) as R.
  cbn [app length Z.of_nat] in R. rewrite R. clear R.
  destruct (unescaped_odd_both s) as [_ H]. destruct (unescaped_shorter_both s) as [_ L].
  destruct (unescaped s) as [r |].
  - destruct (Nat.odd _); [destruct H as [_ H]; now specialize (H eq_refl) |].
    exists r. split; [reflexivity | now apply L].
  - destruct H as [H _]. now rewrite (H eq_refl).
Qed.

Lemma In_skipn_list {A} (x : A) n : forall l, In x (skipn n l) -> In x l.
Proof.
  induction n as [| n IH]; intros [| a l]; simpl; auto.
Qed.

Lemma escapeString_loop_bytes n :
  forall s x, In x (escapeString_loop n s) -> exists c, In c s /\ In x (escapeByte c).
Proof.
  induction n as [| n IH]; intros [| c s] x; simpl; try tauto.
  intros H. apply in_app_or in H as [H | H].
  - exists c. auto.
  - destruct (IH _ _ H) as (c' & Hc' & Hx).
    exists c'. split; [| assumption].
    apply In_skipn_list in Hc'. exact Hc'.
Qed.

Lemma escapeByte_no_control c x :
  In x (escapeByte c) ->
  x <> BS /\ x <> TAB /\ x <> LF /\ x <> FF /\ x <> CR.
Proof.
  unfold escapeByte.
  repeat match goal with
         | |- context [Ascii.eqb c ?y] =>
             let E := fresh "E" in
             destruct (Ascii.eqb c y) eqn:E;
             [apply Ascii.eqb_eq in E; subst;
              simpl; intros [<- | [<- | []]]; repeat split; discriminate |]
         end.
  simpl. intros [<- | []].
  repeat match goal with
         | H : Ascii.eqb _ _ = false |- _ => apply Ascii.eqb_neq in H
         end.
  repeat split; assumption.
Qed.

Lemma escapeString_loop_length n : forall s, (length (escapeString_loop n s) <= 2 * n)%nat.
Proof.
  induction n as [| n IH]; intros [| c s]; cbn [escapeString_loop length]; try lia.
  rewrite length_app. specialize (IH (skipn (runeWidth (c :: s)) (c :: s))).
  assert (length (escapeByte c) <= 2)%nat.
  { destruct (escapeByte_cases c) as [[-> _] | (y & -> & _)]; simpl; lia. }
  lia.
Qed.

(** X11: whatever bytes a text holds, what [escapeString] writes for it
    holds no backspace, tab, line feed, form feed or carriage return, and
    is at most twice as long as the text. *)
Theorem escapeString_no_raw_control s :
  Forall (fun x => x <> BS /\ x <> TAB /\ x <> LF /\ x <> FF /\ x <> CR) (escapeString s) /\
  (length (escapeString s) <= 2 * length s)%nat.
Proof.
  split; [| apply escapeString_loop_length].
  apply Forall_forall. intros x H. apply escapeString_loop_bytes in H as (c & _ & H).
  now apply escapeByte_no_control in H.
Qed.

End EscapesAnyText.

(** ** The text of the serializer *)

Section SerializerText.

Variable rt : runtime.

Lemma value_nested_ind (P : value -> Prop) :
  (forall name fields, Forall (fun p => P (snd p)) fields -> P (VStruct name fields)) ->
  (forall elem isnil store len, Forall P store -> P (VSlice elem isnil store len)) ->
  (forall elem elems, Forall P elems -> P (VArray elem elems)) ->
  (forall b, P (VBool b)) -> (forall k i, P (VInt k i)) -> (forall k u, P (VUint k u)) ->
  (forall k f, P (VFloat k f)) -> (forall s, P (VString s)) -> (forall k, P (VOther k)) ->
  forall v, P v.
Proof.
  intros Hs Hl Ha Hb Hi Hu Hf Hstr Ho. fix IH 1.
  intros [b | k i | k u | k f | s | name fields | elem isnil store len | elem elems | k];
    [apply Hb | apply Hi | apply Hu | apply Hf | apply Hstr | | | | apply Ho].
  - apply Hs. revert fields. fix IHl 1.
    intros [| [k x] l]; constructor; [apply IH | apply IHl].
  - apply Hl. revert store. fix IHl 1.
    intros [| x l]; constructor; [apply IH | apply IHl].
  - apply Ha. revert elems. fix IHl 1.
    intros [| x l]; constructor; [apply IH | apply IHl].
Qed.

Lemma finishes_bind {A C} (Q : A -> Prop) (P : C -> Prop) (m : outcome A) (k : A -> outcome C) :
  finishes Q m -> (forall a, Q a -> finishes P (k a)) -> finishes P (bind m k).
Proof. destruct m; simpl; auto. Qed.

Lemma finishes_weaken {A} (Q P : A -> Prop) (m : outcome A) :
  finishes Q m -> (forall a, Q a -> P a) -> finishes P m.
Proof. destruct m; simpl; auto. Qed.

Lemma wrote_refl s : wrote s s [].
Proof. unfold wrote. now rewrite app_nil_r. Qed.

Lemma wrote_trans s1 s2 s3 o1 o2 :
  wrote s1 s2 o1 -> wrote s2 s3 o2 -> wrote s1 s3 (o1 ++ o2).
Proof. unfold wrote. intros [-> <-] [-> <-]. now rewrite app_assoc. Qed.

Lemma WriteString_wrote s x : wrote s (WriteString s x) x.
Proof. split; reflexivity. Qed.

Lemma appendTabs_wrote s : wrote s (appendTabs s) (repeat TAB (Z.to_nat (indentLevel s))).
Proof. split; reflexivity. Qed.

Lemma appendComma_wrote s :
  wrote s (appendComma s) ([","; LF] ++ repeat TAB (Z.to_nat (indentLevel s))).
Proof. split; [| reflexivity]. unfold appendComma. simpl. now rewrite <- !app_assoc. Qed.

Lemma appendKey_wrote s name :
  wrote s (appendKey s name) ([dquote] ++ name ++ [dquote; ":"; " "]).
Proof. split; [| reflexivity]. unfold appendKey. simpl. now rewrite <- !app_assoc. Qed.

Lemma serializePrimitive_wrote s x : exists out, wrote s (serializePrimitive rt s x) out.
Proof.
  destruct x as [b | k i | k u | k f | str | | | |]; simpl;
    try (eexists; apply wrote_refl);
    try (destruct (_ k); eexists; first [apply WriteString_wrote | apply wrote_refl]).
  - eexists. apply WriteString_wrote.
  - eexists. eapply wrote_trans; [eapply wrote_trans |]; apply WriteString_wrote.
Qed.

Lemma writes_some_trans s1 s2 s3 : writes_some s1 s2 -> writes_some s2 s3 -> writes_some s1 s3.
Proof. intros [o1 H1] [o2 H2]. eexists. eapply wrote_trans; eassumption. Qed.

Lemma frame_closes opening closing s s2 :
  writes_some (appendTabs (set_indent (WriteString s [opening; LF]) (indentLevel s + 1))) s2 ->
  exists body,
    wrote s (WriteString (appendTabs (set_indent (WriteString s2 [LF]) (indentLevel s2 - 1)))
               [closing])
          (framed opening closing (indentLevel s) body).
Proof.
  intros [body [Hj Hi]]. exists body. simpl in Hj, Hi. unfold wrote, framed. simpl.
  rewrite Hj, Hi. split; [| lia].
  replace (indentLevel s + 1 - 1) with (indentLevel s) by lia.
  now rewrite <- !app_assoc.
Qed.

Lemma serializers_frame v :
  forall s,
    finishes (fun s' => wrote s s' (B "null") \/
                        exists body, wrote s s' (framed "[" "]" (indentLevel s) body))
             (serializeArray rt s v) /\
    finishes (fun s' => exists body, wrote s s' (framed "{" "}" (indentLevel s) body))
             (serializeObject rt s v).
Proof.
  induction v as [name fields IH | elem isnil store len IH | elem elems IH
                 | b | k i | k u | k f | str | k] using value_nested_ind;
    intros s; split; try exact I.
  - (* a record *)
    cbn [serializeObject]. unfold startObject, endObject.
    match goal with |- context [bind (?f fields 0%nat _) _] =>
      assert (L : forall l i s1, Forall (fun p => forall s,
                    finishes (fun s' => wrote s s' (B "null") \/
                        exists body, wrote s s' (framed "[" "]" (indentLevel s) body))
                      (serializeArray rt s (snd p)) /\
                    finishes (fun s' => exists body,
                                wrote s s' (framed "{" "}" (indentLevel s) body))
                      (serializeObject rt s (snd p))) l ->
                  finishes (writes_some s1) (f l i s1))
    end.
    { induction l as [| [key x] l IHl]; intros i s1 HF.
      - simpl. eexists. apply wrote_refl.
      - inversion HF as [| ? ? Hx HF']; subst. cbn [snd] in Hx.
        cbn beta iota fix.
        apply (finishes_bind (writes_some s1)).
        + destruct (isPrimitive (Kind x)).
          * simpl. eapply writes_some_trans; [eexists; apply appendKey_wrote |].
            apply serializePrimitive_wrote.
          * destruct (reflect.eqb (Kind x) reflect.Struct).
            -- eapply finishes_weaken; [apply (Hx (appendKey s1 key)) |].
               intros a [body Hb]. eapply writes_some_trans; [eexists; apply appendKey_wrote |].
               eexists; exact Hb.
            -- destruct (isJsonArray (Kind x)); [| exact I].
               eapply finishes_weaken; [apply (Hx (appendKey s1 key)) |].
               intros a Ha. eapply writes_some_trans; [eexists; apply appendKey_wrote |].
               destruct Ha as [Hn | [body Hb]]; eexists; eassumption.
        + intros a Ha. eapply finishes_weaken; [apply (IHl _ _ HF') |].
          intros a' Ha'. eapply writes_some_trans; [exact Ha |].
          eapply writes_some_trans; [| exact Ha'].
          destruct (shouldAppendComma _ _); eexists; [apply appendComma_wrote | apply wrote_refl]. }
    eapply finishes_bind; [apply (L fields 0%nat _ IH) |].
    intros s2 H2. simpl. now apply frame_closes.
  - (* a slice *)
    cbn [serializeArray]. destruct isnil; cbn [negb].
    + simpl. left. apply WriteString_wrote.
    + unfold startArray, endArray.
      match goal with |- context [bind (?f store 0%nat _) _] =>
        assert (L : forall l i s1, Forall (fun x => forall s,
                      finishes (fun s' => wrote s s' (B "null") \/
                          exists body, wrote s s' (framed "[" "]" (indentLevel s) body))
                        (serializeArray rt s x) /\
                      finishes (fun s' => exists body,
                                  wrote s s' (framed "{" "}" (indentLevel s) body))
                        (serializeObject rt s x)) l ->
                    finishes (writes_some s1) (f l i s1))
      end.
      { induction l as [| x l IHl]; intros i s1 HF.
        - simpl. destruct (i <? len)%nat; simpl; [exact I | eexists; apply wrote_refl].
        - inversion HF as [| ? ? Hx HF']; subst.
          cbn beta iota fix.
          destruct (i <? len)%nat; [| simpl; eexists; apply wrote_refl].
          apply (finishes_bind (writes_some s1)).
          + destruct (reflect.eqb (Kind x) reflect.Struct).
            * eapply finishes_weaken; [apply (Hx s1) |].
              intros a [body Hb]. eexists; exact Hb.
            * destruct (isPrimitive (Kind x)); [simpl; apply serializePrimitive_wrote |].
              destruct (isJsonArray (Kind x)); [| simpl; eexists; apply wrote_refl].
              eapply finishes_weaken; [apply (Hx s1) |].
              intros a [Hn | [body Hb]]; eexists; eassumption.
          + intros a Ha. eapply finishes_weaken; [apply (IHl _ _ HF') |].
            intros a' Ha'. eapply writes_some_trans; [exact Ha |].
            eapply writes_some_trans; [| exact Ha'].
            destruct (_ <? _); eexists; [apply appendComma_wrote | apply wrote_refl]. }
      eapply finishes_bind; [apply (L store 0%nat _ IH) |].
      intros s2 H2. simpl. right. now apply frame_closes.
Qed.

(** X12: a call of the serializer returns or panics (it has no loop
    that could go on for ever).  For a record [serializeObject] writes a
    text that opens with a brace and a line feed and closes with a line
    feed and a brace, for a sequence [serializeArray] writes [null] or a
    text framed by brackets in the same way; both leave the indentation
    level where they found it, and so has every nested value inside the
    frame.  [Serialize] returns such a text for a record or a sequence,
    and the empty text for a value of any other kind. *)
Theorem Serialize_frames v s :
  finishes (fun s' => wrote s s' (B "null") \/
                      exists body, wrote s s' (framed "[" "]" (indentLevel s) body))
           (serializeArray rt s v) /\
  finishes (fun s' => exists body, wrote s s' (framed "{" "}" (indentLevel s) body))
           (serializeObject rt s v) /\
  finishes (fun out =>
              match Kind v with
              | reflect.Struct => exists body, out = framed "{" "}" 0 body
              | reflect.Slice | reflect.Array =>
                  out = B "null" \/ exists body, out = framed "[" "]" 0 body
              | _ => out = []
              end)
           (Serialize rt v).
Proof.
  split; [apply serializers_frame |]. split; [apply serializers_frame |].
  unfold Serialize, serialize.
  destruct (serializers_frame v makeSerializer) as [HA HO].
  destruct (reflect.eqb (Kind v) reflect.Struct) eqn:Es.
  - unfold reflect.eqb in Es.
    destruct (reflect.Kind_eq_dec (Kind v) reflect.Struct) as [Ek |]; [| discriminate].
    rewrite Ek.
    eapply finishes_bind; [exact HO |]. intros a [body [Hj _]]. simpl. exists body. exact Hj.
  - destruct (isJsonArray (Kind v)) eqn:Ea.
    + eapply finishes_bind; [exact HA |]. intros a Ha. simpl.
      assert (Hk : Kind v = reflect.Slice \/ Kind v = reflect.Array)
        by (destruct (Kind v); try discriminate; auto).
      assert (G : sjson a = B "null" \/ exists body, sjson a = framed "[" "]" 0 body).
      { destruct Ha as [[Hj _] | [body [Hj _]]]; [left | right; exists body]; exact Hj. }
      destruct Hk as [-> | ->]; exact G.
    + simpl. destruct (Kind v); try discriminate; reflexivity.
Qed.

(** X13: [Serialize] panics on every fixed-length array, and on every
    record that holds one in a field: [serializeArray] asks the value
    whether it is nil, which package reflect answers for a slice and
    refuses for an array. *)
Theorem array_makes_Serialize_panic name fields key elem elems :
  Serialize rt (VArray elem elems) = Panic (ReflectKind "IsNil" reflect.Array) /\
  (In (key, VArray elem elems) fields ->
   exists p, Serialize rt (VStruct name fields) = Panic p).
Proof.
  split; [reflexivity |]. intros Hin.
  destruct (serializers_frame (VStruct name fields) makeSerializer) as [_ HO].
  unfold Serialize, serialize. cbn [Kind]. change (reflect.eqb reflect.Struct reflect.Struct) with true.
  cbv iota.
  assert (N : forall s', serializeObject rt makeSerializer (VStruct name fields) <> Ret s').
  { cbn [serializeObject].
    match goal with |- context [bind (?f fields 0%nat _) _] =>
      assert (L : forall l i s1, In (key, VArray elem elems) l -> forall s', f l i s1 <> Ret s')
    end.
    { induction l as [| [k x] l IHl]; intros i s1 Hl s'; [destruct Hl |].
      destruct Hl as [Heq | Hl].
      - injection Heq as -> ->. cbn. discriminate.
      - cbn beta iota fix.
        match goal with |- bind ?m _ <> _ => destruct m as [a | |] end;
          cbn [bind]; [apply (IHl _ _ Hl) | discriminate | discriminate]. }
    intros s'. specialize (L fields 0%nat (startObject makeSerializer) Hin).
    match goal with |- bind ?m _ <> _ => destruct m as [a | |] end;
      [exfalso; now apply (L a) | discriminate | discriminate]. }
  destruct (serializeObject rt makeSerializer (VStruct name fields)) as [a | p |].
  - now destruct (N a).
  - exists p. reflexivity.
  - destruct HO.
Qed.

End SerializerText.

(** ** Number fields of a record *)

Section NumberFields.

Variable rt : runtime.

Implicit Types (fields : list (bytes * value)) (key k name : bytes) (x : value).

Lemma bytes_eqb_eq (a b : list ascii) : bytes_eqb a b = true <-> a = b.
Proof. unfold bytes_eqb. destruct (list_eq_dec ascii_dec a b); split; congruence. Qed.

Lemma lookup_store_other fields key k x' :
  k <> key -> lookup_field (store_field fields key x') k = lookup_field fields k.
Proof.
  intros Hk. induction fields as [| [f y] fields IH]; simpl; [reflexivity |].
  destruct (bytes_eqb f key) eqn:E; simpl.
  - apply bytes_eqb_eq in E. subst f.
    destruct (bytes_eqb key k) eqn:E'; [apply bytes_eqb_eq in E'; congruence | reflexivity].
  - destruct (bytes_eqb f k); [reflexivity | exact IH].
Qed.

Lemma lookup_store_same fields key x x' :
  lookup_field fields key = Some x -> lookup_field (store_field fields key x') key = Some x'.
Proof.
  induction fields as [| [f y] fields IH]; simpl; [discriminate |].
  destruct (bytes_eqb f key) eqn:E; simpl; rewrite E; auto.
Qed.

Lemma keeps_refl name fields : keeps_numbers name fields (VStruct name fields).
Proof. exists fields. auto. Qed.

Lemma keeps_trans name fields fields1 v :
  keeps_numbers name fields (VStruct name fields1) -> keeps_numbers name fields1 v ->
  keeps_numbers name fields v.
Proof.
  intros (f1 & [= <-] & H1) (f2 & -> & H2). exists f2. split; [reflexivity |].
  intros k x Hk Hx. apply H2; auto.
Qed.

Lemma keeps_store name fields key x x' :
  lookup_field fields key = Some x -> (is_number x = true -> x' = x) ->
  keeps_numbers name fields (SetField (VStruct name fields) key x').
Proof.
  intros Hx Hn. exists (store_field fields key x'). split; [reflexivity |].
  intros k y Hk Hy.
  destruct (list_eq_dec ascii_dec k key) as [-> | Hne].
  - rewrite Hx in Hk. injection Hk as <-. rewrite (Hn Hy).
    now apply lookup_store_same with (x := x).
  - now rewrite lookup_store_other.
Qed.

Lemma number_kind x : is_number x = true -> isJsonArray (Kind x) = false.
Proof.
  destruct x as [| k ? | k ? | k ? | | | | |]; simpl; intros H; try discriminate H;
    destruct k; first [discriminate H | reflexivity].
Qed.

(** A number is no sequence: [deserializeArray] refuses it at once. *)
Lemma deserializeArray_number fuel d x :
  is_number x = true -> on_return (fun r => snd r = x) (deserializeArray rt fuel d x).
Proof.
  intros H. destruct fuel as [| fuel]; [exact I |].
  cbn [deserializeArray]. now rewrite (number_kind x H).
Qed.

(** A number has no field: [deserializeObject] leaves it as it is or
    panics in [FieldByName]. *)
Lemma deserializeObject_number fuel d x :
  is_number x = true -> on_return (fun r => snd r = x) (deserializeObject rt fuel d x).
Proof.
  intros H. destruct fuel as [| fuel]; [exact I |].
  cbn [deserializeObject].
  destruct (hasError _); [reflexivity |].
  destruct fuel as [| fuel]; [exact I |].
  cbn [objectLoop].
  destruct (peekCurrent _) as [b d1].
  destruct (Ascii.eqb b "}"); [reflexivity |].
  destruct (consumeKey d1) as [key d2].
  destruct (hasError d2); [reflexivity |].
  destruct x; try discriminate; exact I.
Qed.

Lemma nested_keeps name fields key x (m : outcome (deserializer * value)) :
  lookup_field fields key = Some x ->
  (is_number x = true -> on_return (fun r => snd r = x) m) ->
  on_return (fun r => keeps_numbers name fields (SetField (VStruct name fields) key (snd r))) m.
Proof.
  intros Hx Hm. destruct m as [[d x'] | |]; try exact I.
  simpl. apply keeps_store with (x := x); auto.
Qed.

Lemma objectPrimitive_keeps fuel d name fields key x :
  lookup_field fields key = Some x ->
  on_return (fun r => keeps_numbers name fields (snd (fst r)))
            (objectPrimitive rt fuel d (VStruct name fields) key x).
Proof.
  intros Hx. unfold objectPrimitive.
  destruct (parsePrimitiveType d) as [[pt [e |]] d1]; [apply keeps_refl |].
  destruct (consumeUntilTerminator fuel d1) as [[[data t] d2] | |]; try exact I.
  cbn [bind].
  destruct pt; cbn [Kind isUintKind isIntKind isFloatKind].
  - apply keeps_refl.
  - destruct (parseString data) as [[s [e |]] | |]; try exact I; [apply keeps_refl |].
    destruct x; try exact I. cbn. now apply keeps_store with (x := VString s0).
  - apply keeps_refl.
  - destruct (parseBool data) as [b [e |]]; [apply keeps_refl |].
    destruct x; try exact I. cbn. now apply keeps_store with (x := VBool b0).
  - destruct (parseNil data); apply keeps_refl.
Qed.

Lemma objectLoop_keeps_numbers fuel :
  forall d name fields,
    on_return (fun r => keeps_numbers name fields (snd (fst r)))
              (objectLoop rt fuel d (VStruct name fields)).
Proof.
  induction fuel as [| fuel IH]; intros d name fields; [exact I |].
  cbn [objectLoop].
  destruct (peekCurrent d) as [b d1].
  destruct (Ascii.eqb b "}"); [apply keeps_refl |].
  destruct (consumeKey d1) as [key d2].
  destruct (hasError d2); [apply keeps_refl |].
  cbn [FieldByName bind].
  destruct (lookup_field fields key) as [x |] eqn:Hx; [| apply keeps_refl].
  apply (on_return_bind (fun r => keeps_numbers name fields (snd (fst r)))).
  - destruct (peekCurrent d2) as [b2 d3].
    destruct (Ascii.eqb b2 "[").
    { pose proof (nested_keeps name fields key x (deserializeArray rt fuel d3 x) Hx
                    (deserializeArray_number fuel d3 x)) as K.
      destruct (deserializeArray rt fuel d3 x) as [[d4 x'] | |]; try exact I.
      cbn [bind]. cbn [on_return snd] in K.
      destruct (hasError d4); [exact K |]. destruct (peekCurrent d4); exact K. }
    destruct (peekCurrent d3) as [b3 d4].
    destruct (Ascii.eqb b3 "{").
    { pose proof (nested_keeps name fields key x (deserializeObject rt fuel d4 x) Hx
                    (deserializeObject_number fuel d4 x)) as K.
      destruct (deserializeObject rt fuel d4 x) as [[d5 x'] | |]; try exact I.
      cbn [bind]. cbn [on_return snd] in K.
      destruct (hasError d5); [exact K |]. destruct (peekCurrent d5); exact K. }
    destruct (d_isPrimitive d4) as [p d5]. destruct p.
    + now apply objectPrimitive_keeps.
    + destruct (peekCurrent d5). apply keeps_refl.
  - intros [[d' v1] ret] K. cbn [fst snd] in K.
    destruct ret; [exact K |].
    destruct K as (fields1 & -> & K).
    eapply on_return_weaken; [apply IH |].
    intros [[d'' v2] r2] K2. cbn [fst snd] in *.
    apply keeps_trans with (fields1 := fields1); [| exact K2].
    exists fields1. auto.
Qed.

(** X14: no document makes [deserializeObject] write a number field:
    when it returns, with or without an error, every field of an integer
    or floating-point kind of the record still holds the value it held
    before the call.  The same holds of [Deserialize] on a record. *)
Theorem number_fields_never_written fuel d j name fields :
  on_return (fun r => keeps_numbers name fields (snd r))
            (deserializeObject rt fuel d (VStruct name fields)) /\
  on_return (fun r => keeps_numbers name fields (snd r))
            (Deserialize rt fuel j (VStruct name fields)).
Proof.
  assert (H : forall fuel d,
             on_return (fun r => keeps_numbers name fields (snd r))
                       (deserializeObject rt fuel d (VStruct name fields))).
  { intros [| n] d0; [exact I |]. cbn [deserializeObject].
    destruct (hasError _); [apply keeps_refl |].
    eapply on_return_bind; [apply objectLoop_keeps_numbers |].
    intros [[d' v1] ret] K. cbn [fst snd] in K. destruct ret; exact K. }
  split; [apply H |].
  unfold Deserialize, deserialize. cbn [Kind].
  change (isJsonArray reflect.Struct) with false.
  change (reflect.eqb reflect.Struct reflect.Struct) with true. cbv iota.
  eapply on_return_bind; [apply H |].
  intros [d' v1] K. cbn [snd] in K. destruct (hasError d'); exact K.
Qed.

End NumberFields.

(** ** The length of a slice *)

Section SliceLength.

Variable rt : runtime.

Implicit Types (elem : type) (store : list value) (len i : nat).

Lemma at_least_refl elem isnil store len : at_least elem len (VSlice elem isnil store len).
Proof. split; [reflexivity | lia]. Qed.

Lemma at_least_trans elem len len1 v :
  (len <= len1)%nat -> at_least elem len1 v -> at_least elem len v.
Proof. intros H. destruct v; simpl; try tauto. intros [-> ?]. split; [reflexivity | lia]. Qed.

Lemma growSlice_at_least elem isnil store len i :
  on_return (at_least elem len) (growSlice (VSlice elem isnil store len) i).
Proof.
  unfold growSlice. cbn [Cap bind].
  destruct (_ <=? _)%nat.
  - cbn [Elem Len bind]. unfold MakeSlice. destruct (_ <? _)%nat; [exact I |].
    cbn [bind Copy Len]. destruct (len <=? i)%nat eqn:E.
    + unfold SetLen. destruct (_ <? _)%nat; [exact I |].
      apply Nat.leb_le in E. split; [reflexivity | lia].
    + split; [reflexivity | lia].
  - cbn [bind Len]. destruct (len <=? i)%nat eqn:E.
    + unfold SetLen. destruct (_ <? _)%nat; [exact I |].
      apply Nat.leb_le in E. split; [reflexivity | lia].
    + split; [reflexivity | lia].
Qed.

Lemma Append_at_least elem isnil store len x :
  on_return (at_least elem len) (Append rt (VSlice elem isnil store len) x).
Proof.
  unfold Append. destruct (negb _); [exact I |].
  destruct (_ <? _)%nat; split; try reflexivity; lia.
Qed.

Lemma arrayPrimitive_at_least fuel d elem isnil store len i :
  on_return (fun r => at_least elem len (snd (fst r)))
            (arrayPrimitive rt fuel d (VSlice elem isnil store len) i).
Proof.
  unfold arrayPrimitive.
  destruct (parsePrimitiveType d) as [[pt [e |]] d1]; [apply at_least_refl |].
  destruct (consumeUntilTerminator fuel d1) as [[[data t] d2] | |]; try exact I.
  cbn [bind].
  apply (on_return_bind (fun r => at_least elem len (snd (fst r)))).
  - destruct pt.
    + apply at_least_refl.
    + destruct (parseString data) as [[s [e |]] | |]; try exact I; [apply at_least_refl |].
      cbn [bind].
      pose proof (Append_at_least elem isnil store len (VString s)) as H.
      destruct (Append rt _ _); try exact I. exact H.
    + cbn [Elem bind].
      destruct (isUintKind _); [| destruct (isIntKind _); [| destruct (isFloatKind _)]].
      * destruct (parseUint data) as [u [e |]]; [apply at_least_refl |].
        destruct (Index _ i); try exact I. cbn [bind].
        destruct (SetUint _ _); try exact I. apply at_least_refl.
      * destruct (parseInt data) as [u [e |]]; [apply at_least_refl |].
        destruct (Index _ i); try exact I. cbn [bind].
        destruct (SetInt _ _); try exact I. apply at_least_refl.
      * destruct (ParseFloat rt data) as [u [e |]]; [apply at_least_refl |].
        destruct (Index _ i); try exact I. cbn [bind].
        destruct (SetFloat rt _ _); try exact I. apply at_least_refl.
      * apply at_least_refl.
    + destruct (parseBool data) as [b [e |]]; [apply at_least_refl |].
      pose proof (Append_at_least elem isnil store len (VBool b)) as H.
      destruct (Append rt _ _); try exact I. exact H.
    + destruct (parseNil data); apply at_least_refl.
  - intros [[d3 v3] ret] K. cbn [fst snd] in K. destruct ret; exact K.
Qed.

Lemma arrayLoop_at_least fuel :
  forall d elem isnil store len i,
    on_return (fun r => at_least elem len (snd (fst r)))
              (arrayLoop rt fuel d (VSlice elem isnil store len) i).
Proof.
  induction fuel as [| fuel IH]; intros d elem isnil store len i; [exact I |].
  cbn [arrayLoop].
  destruct (peekCurrent d) as [b d1].
  destruct (Ascii.eqb b "]"); [apply at_least_refl |].
  cbn [Kind]. change (reflect.eqb reflect.Slice reflect.Slice) with true. cbv iota.
  apply (on_return_bind (at_least elem len)); [apply growSlice_at_least |].
  intros [| | | | | | e1 isnil1 store1 len1 | |] K; try (exfalso; exact K).
  destruct K as [-> K1]. cbn [Len bind].
  apply (on_return_bind (fun r => at_least elem len (snd (fst r)))).
  - apply on_return_weaken with (Q := fun r => at_least elem len1 (snd (fst r)));
      [| intros a; apply at_least_trans; auto].
    destruct (_ <? _)%nat; [| apply at_least_refl].
    destruct (peekCurrent d1) as [b2 d2].
    destruct (Ascii.eqb b2 "[").
    { destruct (Index _ i) as [x | |]; try exact I. cbn [bind].
      destruct (deserializeArray rt fuel d2 x) as [[d3 x'] | |]; try exact I. cbn [bind].
      destruct (hasError d3); [apply at_least_refl |].
      destruct (peekCurrent d3). apply at_least_refl. }
    destruct (peekCurrent d2) as [b3 d3].
    destruct (Ascii.eqb b3 "{").
    { destruct (Index _ i) as [x | |]; try exact I. cbn [bind].
      destruct (deserializeObject rt fuel d3 x) as [[d4 x'] | |]; try exact I. cbn [bind].
      destruct (hasError d4); [apply at_least_refl |].
      destruct (peekCurrent d4). apply at_least_refl. }
    destruct (d_isPrimitive d3) as [p d4]. destruct p.
    + apply arrayPrimitive_at_least.
    + destruct (peekCurrent d4). apply at_least_refl.
  - intros [[d' v2] ret] K. cbn [fst snd] in K.
    destruct ret; [exact K |].
    destruct v2 as [| | | | | | e2 isnil2 store2 len2 | |]; try (exfalso; exact K).
    destruct K as [-> K].
    destruct (peekCurrent (consumeWhitespace d')) as [b4 d4].
    destruct (Ascii.eqb b4 "]"); [split; [reflexivity | exact K] |].
    cbn [Len bind Kind]. change (reflect.eqb reflect.Slice reflect.Array) with false. cbv iota.
    destruct (S i <? len2)%nat eqn:E; cbn [bind].
    + eapply on_return_weaken; [apply IH |].
      intros a. apply at_least_trans; auto.
    + unfold SetLen. destruct (_ <? S i)%nat; [exact I |]. cbn [bind].
      eapply on_return_weaken; [apply IH |].
      intros a. apply at_least_trans; auto. apply Nat.ltb_ge in E. lia.
Qed.

(** X15: no document makes [deserializeArray] shorten a slice: when it
    returns, with or without an error, the target is a slice of the same
    element type that is at least as long as before the call.  A slice
    that is longer than the document keeps the elements the document does
    not reach.  The same holds of [Deserialize] on a slice. *)
Theorem slice_never_shortened fuel d j elem isnil store len :
  on_return (fun r => at_least elem len (snd r))
            (deserializeArray rt fuel d (VSlice elem isnil store len)) /\
  on_return (fun r => at_least elem len (snd r))
            (Deserialize rt fuel j (VSlice elem isnil store len)).
Proof.
  assert (H : forall fuel d,
             on_return (fun r => at_least elem len (snd r))
                       (deserializeArray rt fuel d (VSlice elem isnil store len))).
  { intros [| n] d0; [exact I |]. cbn [deserializeArray Kind].
    change (isJsonArray reflect.Slice) with true. cbn [negb].
    destruct (hasError _); [apply at_least_refl |].
    eapply on_return_bind; [apply arrayLoop_at_least |].
    intros [[d' v1] ret] K. cbn [fst snd] in K. destruct ret; exact K. }
  split; [apply H |].
  unfold Deserialize, deserialize. cbn [Kind].
  change (isJsonArray reflect.Slice) with true. cbv iota.
  eapply on_return_bind; [apply H |].
  intros [d' v1] K. cbn [snd] in K. destruct (hasError d'); exact K.
Qed.

End SliceLength.

(** ** Reads of the buffer, and literals *)

Section Reads.

Implicit Types (d : deserializer) (j data : bytes).

(** X16: a cursor that the operations and the walkers have moved from
    the one [makeDeserializer] makes stands inside the document or just
    behind it, and when [atEof(0)] answers no, the byte [d.json[d.pos]]
    that the code reads next exists. *)
Theorem guarded_read_in_range j d :
  moves (makeDeserializer j) d ->
  0 <= pos d <= Z.of_nat (length j) /\
  (fst (atEof d 0) = false -> nth_error j (Z.to_nat (pos d)) = Some (at_pos d)).
Proof.
  intros (Hj & He & Hp & Hb). simpl in *.
  assert (Hb' : pos d <= Z.of_nat (length j)) by (pose proof (Zle_0_nat (length j)); lia).
  split; [lia |].
  intros Hg. rewrite <- Hj. apply guarded_index_in_range; [| exact Hg].
  split; [lia |]. rewrite He, Hj. reflexivity.
Qed.

Lemma length_firstn_skipn {A} (l : list A) p n :
  (p + n <= length l)%nat -> length (firstn n (skipn p l)) = n.
Proof. intros H. rewrite length_firstn, length_skipn. lia. Qed.

(** X17: on a cursor of the program [peek(offset)] returns
    [offset + 1] bytes when that many and one more are left, and nothing
    otherwise; [isNull] compares the five bytes of [peek(4)] with the four
    of [null] and never answers yes. *)
Theorem isNull_never_true d :
  cursor_ok d ->
  (forall offset, 0 <= offset -> fst (atEof d (1 + offset)) = false ->
                  length (fst (peek d offset)) = Z.to_nat (1 + offset)) /\
  fst (isNull d) = false.
Proof.
  intros [Hp He].
  assert (P : forall offset, 0 <= offset -> fst (atEof d (1 + offset)) = false ->
                length (fst (peek d offset)) = Z.to_nat (1 + offset)).
  { intros offset Ho Hg. unfold peek.
    destruct (atEof_cases d (1 + offset)) as [[_ E] | [Hle E]]; rewrite E in *; [discriminate |].
    cbn [fst]. apply length_firstn_skipn. lia. }
  split; [exact P |].
  unfold isNull.
  destruct (atEof_cases d 4) as [[_ ->] | [_ ->]]; [reflexivity |].
  specialize (P 4 ltac:(lia)). unfold peek in *.
  destruct (atEof_cases d (1 + 4)) as [[_ E] | [_ E]]; rewrite E in *; [reflexivity |].
  simpl in *. specialize (P eq_refl).
  unfold bytes_eqb. destruct (list_eq_dec _ _ _) as [Heq |]; [| reflexivity].
  rewrite Heq in P. discriminate P.
Qed.

(** X18: the literals [parseBool] and [parseNil] accept are exactly the
    texts [true], [false] and [null]: [parseBool] returns a value without
    an error on the text that [strconv.FormatBool] writes for that value
    and on no other, [parseNil] returns no error on [null] and on no other
    text. *)
Theorem parseBool_parseNil_exact data b :
  (parseBool data = (b, None) <-> data = strconv.FormatBool b) /\
  (parseNil data = None <-> data = B "null").
Proof.
  unfold parseBool, parseNil, strconv.FormatBool, bytes_eqb.
  cbv [B list_ascii_of_string]. split.
  - destruct data as [| c data]; [destruct b; split; discriminate |].
    destruct (list_eq_dec _ _ _) as [Ht | Ht].
    + rewrite Ht. destruct b; split; intros H; first [reflexivity | discriminate H].
    + destruct (list_eq_dec _ _ _) as [Hf | Hf].
      * rewrite Hf. destruct b; split; intros H; first [reflexivity | discriminate H].
      * destruct b; split; intros H; first [discriminate H | contradiction].
  - destruct data as [| c data]; [split; discriminate |].
    destruct (list_eq_dec _ _ _) as [Hn | Hn]; cbn [negb]; split; intros H;
      first [assumption | reflexivity | discriminate H | contradiction].
Qed.

(** X19: the test [isPrimitive] of the cursor lets through every first
    byte on which [parsePrimitiveType] names a kind of literal; on the
    other bytes it lets through (the letters except [t], [f] and [n])
    [parsePrimitiveType] answers with the error that shows the byte, never
    with the whitespace error. *)
Theorem primitive_test_admits_every_literal d :
  let b := fst (peekCurrent d) in
  let p := fst (d_isPrimitive d) in
  let r := fst (parsePrimitiveType (snd (d_isPrimitive d))) in
  (snd r = None -> p = true) /\
  (p = true -> snd r = None \/ r = (PrimitiveType.Invalid, Some (ErrExpectedPrimitive b))).
Proof.
  unfold d_isPrimitive, parsePrimitiveType, peekCurrent.
  destruct (atEof_cases d 0) as [[Hlt E] | [Hle E]]; rewrite E; cbn [fst snd].
  - destruct (atEof_cases (set_err d ErrEof) 0) as [[_ E'] | [Hle' _]]; [| simpl in Hle'; lia].
    change (set_err (set_err d ErrEof) ErrEof) with (set_err d ErrEof) in E'.
    repeat (rewrite E'; cbn -[atEof]). split; discriminate.
  - repeat (rewrite E; cbn [fst snd]). generalize (at_pos d). clear.
    intros [[] [] [] [] [] [] [] []]; vm_compute; split; intros H;
      first [discriminate H | reflexivity | left; reflexivity | right; reflexivity].
Qed.

End Reads.

(** ** Text literals *)

Section TextLiterals.

Implicit Types (e rest : bytes) (c l : byte).

(** X20: what [parseString] does with a literal, by its first and last
    bytes: it panics on the empty literal and on the literal that is one
    quote (the index [len(value)-1] is then -1); a first byte that is no
    quote, and otherwise a last byte that is no quote, gives the error
    that shows this byte; between two quotes it returns what
    [unescapeString] makes of the bytes between them. *)
Theorem parseString_cases :
  parseString [] = Panic (IndexOutOfRange 0 0) /\
  parseString [dquote] = Panic (IndexOutOfRange (-1) 0) /\
  (forall c rest,
     parseString (c :: rest) =
     if Ascii.eqb c dquote then parseString (dquote :: rest)
     else Ret ([], Some (ErrStringStart c))) /\
  (forall e l,
     parseString (dquote :: e ++ [l]) =
     if Ascii.eqb l dquote then s <- unescapeString e ;; Ret (s, None)
     else Ret ([], Some (ErrStringEnd l))).
Proof.
  split; [reflexivity |]. split; [reflexivity |]. split.
  - intros c rest. destruct (Ascii.eqb c dquote) eqn:E.
    + apply Ascii.eqb_eq in E. now subst.
    + unfold parseString. pose proof (index_middle [] c rest) as I0.
      cbn [app length Z.of_nat] in I0. rewrite I0. cbn [bind]. now rewrite E.
  - intros e l. destruct (Ascii.eqb l dquote) eqn:E.
    + apply Ascii.eqb_eq in E. subst. apply parseString_quoted.
    + unfold parseString. pose proof (index_middle [] dquote (e ++ [l])) as I0.
      cbn [app length Z.of_nat] in I0. rewrite I0. cbn [bind].
      rewrite Ascii.eqb_refl. cbn [negb skipn].
      replace (Z.of_nat (length (e ++ [l])) - 1) with (Z.of_nat (length e))
        by (rewrite length_app; simpl; lia).
      rewrite index_middle. cbn [bind]. now rewrite E.
Qed.

End TextLiterals.

(** ** The further properties on examples *)

(** X16, on the cursor behind the opening bracket of [[1]]. *)
Lemma guarded_read_in_range_witness :
  moves (makeDeserializer (B "[1]")) (consumeByte (makeDeserializer (B "[1]")) "[") /\
  nth_error (B "[1]") 1 = Some "1"%char.
Proof.
  assert (M : moves (makeDeserializer (B "[1]")) (consumeByte (makeDeserializer (B "[1]")) "["))
    by (unfold moves; cbn; repeat split; first [reflexivity | lia]).
  split; [exact M |].
  destruct (guarded_read_in_range (B "[1]") _ M) as [_ H]. exact (H eq_refl).
Defined.

(** X17, on a document that starts with [null]. *)
Lemma isNull_never_true_witness :
  cursor_ok (makeDeserializer (B "null, 1")) /\
  fst (isNull (makeDeserializer (B "null, 1"))) = false.
Proof.
  assert (H : cursor_ok (makeDeserializer (B "null, 1")))
    by (split; [vm_compute; intros H; discriminate H | reflexivity]).
  split; [exact H |]. exact (proj2 (isNull_never_true _ H)).
Defined.

(** X6, on the first key of a record of the spec's examples. *)
Lemma consumeKey_returns_witness :
  consumeKey (cur (js "{'Name': 'x'}") 1) = (B "Name", cur (js "{'Name': 'x'}") 9).
Proof.
  exact (consumeKey_returns ["{"] (B "Name") [" "] dquote (js "x'}") eq_refl eq_refl eq_refl).
Defined.


(** X8, on a slice of two elements, with bytes behind the closing
    bracket. *)
Lemma empty_document_keeps_target_witness :
  ends_with (fun fuel => Deserialize example_runtime fuel (B "[ ] and more")
                           (VSlice (TBasic reflect.Int) false
                              [VInt reflect.Int 7; VInt reflect.Int 8] 2))
            (Ret (None, VSlice (TBasic reflect.Int) false
                          [VInt reflect.Int 7; VInt reflect.Int 8] 2)).
Proof.
  exact (proj1 (empty_document_keeps_target example_runtime
                  (VSlice (TBasic reflect.Int) false [VInt reflect.Int 7; VInt reflect.Int 8] 2)
                  [" "] (B " and more") eq_refl) eq_refl).
Defined.

(** X9, on the nil slice and on a full slice of four elements. *)
Lemma growSlice_makes_room_witness :
  growSlice (VSlice (TBasic reflect.Int) true [] 0) 0
  = Ret (VSlice (TBasic reflect.Int) false (repeat (VInt reflect.Int 0) 4) 1) /\
  growSlice (VSlice (TBasic reflect.Int) false (map (VInt reflect.Int) [1; 2; 3; 4]) 4) 4
  = Ret (VSlice (TBasic reflect.Int) false
           (map (VInt reflect.Int) [1; 2; 3; 4] ++ repeat (VInt reflect.Int 0) 2) 5).
Proof.
  split.
  - exact (proj1 (growSlice_makes_room (TBasic reflect.Int) true [] 0 0
                    ltac:(simpl; lia) ltac:(simpl; lia))).
  - exact (proj1 (growSlice_makes_room (TBasic reflect.Int) false
                    (map (VInt reflect.Int) [1; 2; 3; 4]) 4 4
                    ltac:(simpl; lia) ltac:(simpl; lia))).
Defined.

(** X13, on a record whose only field is an array of two integers. *)
Lemma array_makes_Serialize_panic_witness :
  exists p, Serialize example_runtime (VStruct (B "T") [(B "A", int_array [1; 2])]) = Panic p.
Proof.
  exact (proj2 (array_makes_Serialize_panic example_runtime (B "T") [(B "A", int_array [1; 2])]
                  (B "A") (TBasic reflect.Int) (map (VInt reflect.Int) [1; 2]))
               (or_introl eq_refl)).
Defined.
